(** * PaddingFIFOQueue: a shallow embedding of
      tensorflow/core/kernels/padding_fifo_queue.cc

    The queue stores tuples of tensors, one deque per component, and
    assembles a batch of variably shaped elements into one zero-padded
    rectangular tensor per component.  This file embeds the functions of
    padding_fifo_queue.cc and proves the properties the specification
    states about them. *)

From Stdlib Require Import ZArith Lia Bool.
From stdpp Require Import base list strings.

Open Scope nat_scope.

(** ** Status codes, element types, shapes and tensors *)

(** The error codes the file produces through [errors::...]; messages are
    not modelled. *)
Inductive Status :=
  | OK | Cancelled | InvalidArgument | OutOfRange
  | Unimplemented | Internal | DataLoss.

Definition ok (s : Status) : bool :=
  match s with OK => true | _ => false end.

#[global] Instance Status_eq_dec : EqDecision Status.
Proof. solve_decision. Defined.

(** [DataType] is the enum value of [tensorflow::DataType]. *)
Abbreviation DataType := nat (only parsing).

(** A [TensorShape] holds dimension sizes, which the class keeps
    non-negative; a [PartialTensorShape] holds [int64] sizes where a
    negative size ([-1]) marks a dimension left open. *)
Abbreviation TensorShape := (list nat) (only parsing).
Abbreviation PartialTensorShape := (list Z) (only parsing).

(** Buffer entries.  [T()] of every element type is rendered as [0]. *)
Abbreviation Value := Z (only parsing).

(** A tensor: element type, shape, and its flat row-major buffer. *)
Record Tensor := mkTensor {
  dtype : DataType;
  shape : TensorShape;
  data : list Value
}.

Abbreviation PersistentTensor := Tensor (only parsing).
Abbreviation Tuple := (list Tensor) (only parsing).

Fixpoint num_elements (dims : TensorShape) : nat :=
  match dims with
  | [] => 1
  | d :: ds => d * num_elements ds
  end.

Definition dims (t : Tensor) : nat := length (shape t).
Definition dim_size (t : Tensor) (i : nat) : nat := nth i (shape t) 0.
Definition NumElements (t : Tensor) : nat := num_elements (shape t).

(** ** Row-major indexing and Eigen's slice assignment *)

(** Flat position of a multi-index in a row-major buffer. *)
Fixpoint ravel (ds idx : list nat) : nat :=
  match ds, idx with
  | _ :: ds', i :: idx' => i * num_elements ds' + ravel ds' idx'
  | _, _ => 0
  end.

(** Multi-index of a flat position. *)
Fixpoint unravel (ds : list nat) (k : nat) : list nat :=
  match ds with
  | [] => []
  | _ :: ds' => (k / num_elements ds') :: unravel ds' (k mod num_elements ds')
  end.

(** [idx] lies in the box that starts at [offs] and has extents [sizes]. *)
Fixpoint in_slice (offs sizes idx : list nat) : bool :=
  match offs, sizes, idx with
  | [], [], [] => true
  | o :: offs', s :: sizes', i :: idx' =>
      (o <=? i) && (i <? o + s) && in_slice offs' sizes' idx'
  | _, _, _ => false
  end.

(** [parent_t.slice(offs, sizes) = src.reshape(sizes)] on row-major
    buffers: every position of the parent inside the box receives the
    entry of [src] at the same position relative to the box; the others
    keep their value.  This is Eigen's assignment for a box that lies
    inside the parent, and only for such a box: where the box exceeds the
    parent Eigen asserts or writes at the strided offsets, which this
    definition does not describe.  Every statement below about entries of
    the output after a copy therefore assumes that the element fits the
    slot it is copied into. *)
Definition slice_assign (pdims : list nat) (pdata : list Value)
    (offs sizes : list nat) (src : list Value) : list Value :=
  imap (fun k old =>
          let idx := unravel pdims k in
          if in_slice offs sizes idx
          then nth (ravel sizes (zip_with Nat.sub idx offs)) src 0%Z
          else old) pdata.

(** Entry of a tensor at a multi-index. *)
Definition tensor_at (t : Tensor) (idx : list nat) : Value :=
  nth (ravel (shape t) idx) (data t) 0%Z.

(** [idx] is a valid multi-index of shape [ds]. *)
Definition in_bounds (ds idx : list nat) : Prop := Forall2 (fun i d => i < d) idx ds.

Fixpoint in_boundsb (ds idx : list nat) : bool :=
  match ds, idx with
  | [], [] => true
  | d :: ds', i :: idx' => (i <? d) && in_boundsb ds' idx'
  | _, _ => false
  end.

(** ** ConvertShapesPartialDimensionsToZero (lines 359-368) *)

Definition ConvertShapesPartialDimensionsToZero
    (partial_shapes : list PartialTensorShape) : list TensorShape :=
  map (fun partial : PartialTensorShape =>
         map (fun s : Z => if (s <? 0)%Z then 0 else Z.to_nat s) partial)
      partial_shapes.

Section PaddingFIFOQueue.

(** [TF_CALL_ALL_TYPES] lives in register_types.h; the set of element
    types it expands over is a parameter of the development. *)
Variable TF_CALL_ALL_TYPES : DataType -> bool.

(** ** HandleElementToLargerSlice (lines 269-293)

    [slice_indices] is the zero-initialised [DSizes] with its first entry
    set to [index]; [slice_size] is [1] followed by the element's
    dimensions.  The source checks [parent->dim_size(0) != 0] with a
    DCHECK before dividing. *)
Definition HandleElementToLargerSlice (NDIMS : nat) (element parent : Tensor)
    (index : nat) : Status * Tensor :=
  if NumElements parent / dim_size parent 0 <? NumElements element
  then (Internal, parent)
  else
    let slice_indices := index :: replicate NDIMS 0 in
    let slice_size := 1 :: map (dim_size element) (seq 0 NDIMS) in
    (OK, mkTensor (dtype parent) (shape parent)
           (slice_assign (shape parent) (data parent)
              slice_indices slice_size (data element))).

(** ** HandleElementToLargerSliceWithRank (lines 297-313) *)
Definition HandleElementToLargerSliceWithRank (NDIMS : nat)
    (element parent : Tensor) (index : nat) : Status * Tensor :=
  if TF_CALL_ALL_TYPES (dtype element)
  then HandleElementToLargerSlice NDIMS element parent index
  else (Unimplemented, parent).

(** ** CopyElementToLargerSlice (lines 317-344) *)
Definition CopyElementToLargerSlice (element parent : Tensor) (index : nat)
    : Status * Tensor :=
  if negb (dims parent =? dims element + 1)
  then (Internal, parent)
  else
    match dims element with
    | 0 => HandleElementToLargerSliceWithRank 0 element parent index
    | 1 => HandleElementToLargerSliceWithRank 1 element parent index
    | 2 => HandleElementToLargerSliceWithRank 2 element parent index
    | 3 => HandleElementToLargerSliceWithRank 3 element parent index
    | 4 => HandleElementToLargerSliceWithRank 4 element parent index
    | _ => (Unimplemented, parent)
    end.

(** ** SetElementZero (lines 347-357) *)
Definition SetElementZero (element : Tensor) : Status * Tensor :=
  if TF_CALL_ALL_TYPES (dtype element)
  then (OK, mkTensor (dtype element) (shape element)
              (replicate (length (data element)) 0%Z))
  else (Unimplemented, element).

(** ** OpKernelContext and the cancellation manager

    op_kernel.h and cancellation.h are outside this file.  The context is
    modelled by what the queue uses of it: the status it holds, the rule by
    which [SetStatus] combines the held status with a new one, the outcome
    of each [allocate_persistent] call in call order, and the (arbitrary)
    initial contents of a buffer obtained from [allocate_temp]. *)
Record OpKernelContext := mkContext {
  status_ : Status;
  status_rule : Status -> Status -> Status;
  persistent_outcome : nat -> Status;
  persistent_calls : nat;
  temp_contents : nat -> Value
}.

Definition SetStatus (ctx : OpKernelContext) (s : Status) : OpKernelContext :=
  mkContext (status_rule ctx (status_ ctx) s) (status_rule ctx)
    (persistent_outcome ctx) (persistent_calls ctx) (temp_contents ctx).

Definition status (ctx : OpKernelContext) : Status := status_ ctx.

(** [allocate_persistent]: the status of the call, by call number. *)
Definition allocate_persistent (ctx : OpKernelContext) (dt : nat)
    (sh : list nat) : Status * OpKernelContext :=
  (persistent_outcome ctx (persistent_calls ctx),
   mkContext (status_ ctx) (status_rule ctx) (persistent_outcome ctx)
     (S (persistent_calls ctx)) (temp_contents ctx)).

(** [allocate_temp]: the source discards its status; the buffer it hands
    out has the requested type and shape and unspecified contents. *)
Definition allocate_temp (ctx : OpKernelContext) (dt : DataType)
    (sh : TensorShape) : Tensor :=
  mkTensor dt sh (map (temp_contents ctx) (seq 0 (num_elements sh))).

Abbreviation CancellationToken := nat (only parsing).

Record CancellationManager := mkCancellationManager {
  is_cancelled_ : bool;
  next_token : CancellationToken;
  callbacks_ : list CancellationToken
}.

Definition get_cancellation_token (cm : CancellationManager)
    : CancellationToken * CancellationManager :=
  (next_token cm,
   mkCancellationManager (is_cancelled_ cm) (S (next_token cm)) (callbacks_ cm)).

(** Modelled from the spec: [CancellationManager::RegisterCallback]
    (cancellation.h) refuses the callback and returns [false] when the
    context is already cancelled, and records it otherwise. *)
Definition RegisterCallback (cm : CancellationManager)
    (token : CancellationToken) : bool * CancellationManager :=
  if is_cancelled_ cm then (false, cm)
  else (true, mkCancellationManager false (next_token cm)
                (token :: callbacks_ cm)).

(** ** Attempts and the queue *)

Inductive RunResult := kNoProgress | kProgress | kComplete.

(** An entry of [dequeue_attempts_].  [done_callback] is rendered by the
    tuple the user callback will be invoked with; the progress function
    [run_callback] of every attempt this file creates is
    [dequeue_many_run] below. *)
Record Attempt := mkAttempt {
  elements_requested : Z;
  done_callback : Tuple;
  context : OpKernelContext;
  cancellation_token : CancellationToken;
  tuples : list Tuple;
  tuple : Tuple
}.

(** The queue: its configuration, the element store [queues_] (one deque
    per component), the closed flag and the ledger of pending dequeue
    attempts.  [mu_acquired] counts how often [mu_] has been taken. *)
Record PaddingFIFOQueue := mkQueue {
  capacity_ : Z;
  component_dtypes_ : list DataType;
  component_shapes_ : list TensorShape;
  partial_shapes_ : list PartialTensorShape;
  queues_ : list (list PersistentTensor);
  closed_ : bool;
  dequeue_attempts_ : list Attempt;
  mu_acquired : nat
}.

Definition num_components (q : PaddingFIFOQueue) : nat :=
  length (component_dtypes_ q).

(** The constructor (lines 34-39); the sub-queues are created by
    [FIFOQueue::Initialize], one per component. *)
Definition new_PaddingFIFOQueue (capacity : Z)
    (component_dtypes : list DataType)
    (partial_shapes : list PartialTensorShape) : PaddingFIFOQueue :=
  mkQueue capacity component_dtypes
    (ConvertShapesPartialDimensionsToZero partial_shapes) partial_shapes
    (replicate (length component_dtypes) []) false [] 0.

(** [Initialize] (lines 41-53); [base] is the status of
    [FIFOQueue::Initialize]. *)
Definition Initialize (base : Status) (q : PaddingFIFOQueue) : Status :=
  if negb (ok base) then base
  else if negb (length (component_dtypes_ q) =? length (partial_shapes_ q))
       then InvalidArgument
       else OK.

Definition with_queues (q : PaddingFIFOQueue)
    (qs : list (list PersistentTensor)) : PaddingFIFOQueue :=
  mkQueue (capacity_ q) (component_dtypes_ q) (component_shapes_ q)
    (partial_shapes_ q) qs (closed_ q) (dequeue_attempts_ q) (mu_acquired q).

Definition with_context (a : Attempt) (ctx : OpKernelContext) : Attempt :=
  mkAttempt (elements_requested a) (done_callback a) ctx
    (cancellation_token a) (tuples a) (tuple a).

Definition with_tuple (a : Attempt) (t : Tuple) : Attempt :=
  mkAttempt (elements_requested a) (done_callback a) (context a)
    (cancellation_token a) (tuples a) t.

(** [int32 s = queues_[0].size()]. *)
Definition int32_wrap (z : Z) : Z := ((z + 2 ^ 31) mod 2 ^ 32 - 2 ^ 31)%Z.

Definition size32 (q : PaddingFIFOQueue) : Z :=
  int32_wrap (Z.of_nat (length (nth 0 (queues_ q) []))).

(** The value of a default-constructed [PersistentTensor] (tensor.h). *)
Variable empty_PersistentTensor : PersistentTensor.

Definition component (t : Tuple) (i : nat) : Tensor :=
  nth i t empty_PersistentTensor.

(** ** GetElementComponent (lines 55-65)

    [out_tensor] keeps its previous value when the allocation fails. *)
Definition GetElementComponent (t : Tuple) (i : nat) (ctx : OpKernelContext)
    (out_tensor : PersistentTensor)
    : Status * OpKernelContext * PersistentTensor :=
  let element_shape := shape (component t i) in
  let '(s, ctx') :=
    allocate_persistent ctx (dtype (component t i)) element_shape in
  if ok s then (OK, ctx', component t i) else (s, ctx', out_tensor).

(** Modelled from the spec: [FIFOQueue::DequeueLocked] (fifo_queue.cc),
    the store's [popFront]: it removes and returns the oldest tuple, across
    all component containers. *)
Definition DequeueLocked (q : PaddingFIFOQueue) : Tuple * PaddingFIFOQueue :=
  (map (fun sub => hd empty_PersistentTensor sub) (queues_ q),
   with_queues q (map (fun sub => tl sub) (queues_ q))).

(** ** The restoration loops (lines 106-123)

    Inner loop over the components [j] of one tuple. *)
Fixpoint restore_components (js : list nat) (t : Tuple)
    (ctx : OpKernelContext) (qs : list (list PersistentTensor))
    : OpKernelContext * list (list PersistentTensor) :=
  match js with
  | [] => (ctx, qs)
  | j :: js' =>
      let '(s, ctx1, element) :=
        GetElementComponent t j ctx empty_PersistentTensor in
      let ctx2 := if ok s then ctx1 else SetStatus ctx1 DataLoss in
      restore_components js' t ctx2 (alter (cons element) j qs)
  end.

(** Outer loop: [for (i = tuples.size() - 1; i >= 0; --i)], given the
    tuples in the order they are visited. *)
Fixpoint restore_tuples (N : nat) (visited : list Tuple)
    (ctx : OpKernelContext) (qs : list (list PersistentTensor))
    : OpKernelContext * list (list PersistentTensor) :=
  match visited with
  | [] => (ctx, qs)
  | t :: rest =>
      let '(ctx1, qs1) := restore_components (seq 0 N) t ctx qs in
      restore_tuples N rest ctx1 qs1
  end.

(** ** The padding assembler (lines 136-201) *)

(** Modelled from the spec: [PartialTensorShape::IsFullyDefined]
    (tensor_shape.h): no dimension of the declared shape is left open. *)
Definition IsFullyDefined (p : PartialTensorShape) : bool :=
  forallb (fun d => (0 <=? d)%Z) p.

Definition partial_dim_size (p : PartialTensorShape) (j : nat) : Z :=
  nth j p (-1)%Z.

(** The inner [for (const Tuple& t : tuples)] of lines 156-159. *)
Definition max_dim (ts : list Tuple) (i j : nat) : nat :=
  fold_left (fun max_val t => Nat.max max_val (dim_size (component t i) j))
    ts 0.

(** The shape built by lines 146-162 for component [i]. *)
Definition output_shape (q : PaddingFIFOQueue) (ts : list Tuple) (i : nat)
    : TensorShape :=
  let batch_size := length ts in
  let partial_shape := Z.of_nat batch_size :: nth i (partial_shapes_ q) [] in
  batch_size ::
    map (fun j =>
           if (-1 <? partial_dim_size partial_shape (j + 1))%Z
           then Z.to_nat (partial_dim_size partial_shape (j + 1))
           else max_dim ts i j)
        (seq 0 (length partial_shape - 1)).

Definition has_dynamic_shape (q : PaddingFIFOQueue) (ts : list Tuple)
    (i : nat) : bool :=
  negb (IsFullyDefined (Z.of_nat (length ts) :: nth i (partial_shapes_ q) [])).

(** One iteration of the allocation loop (lines 145-180).  [inr] is the
    early [return kComplete]. *)
Definition allocate_component (q : PaddingFIFOQueue) (i : nat)
    (st : Attempt * list bool) : Attempt * list bool + Attempt :=
  let '(a, dynamic_shape) := st in
  let element :=
    allocate_temp (context a) (nth i (component_dtypes_ q) 0)
      (output_shape q (tuples a) i) in
  if has_dynamic_shape q (tuples a) i then
    let '(s, element') := SetElementZero element in
    let a1 := with_context a (SetStatus (context a) s) in
    if negb (ok (status (context a1))) then inr a1
    else inl (with_tuple a1 (tuple a1 ++ [element']), dynamic_shape ++ [true])
  else inl (with_tuple a (tuple a ++ [element]), dynamic_shape ++ [false]).

Fixpoint allocate_components (q : PaddingFIFOQueue) (cs : list nat)
    (st : Attempt * list bool) : Attempt * list bool + Attempt :=
  match cs with
  | [] => inl st
  | i :: cs' =>
      match allocate_component q i st with
      | inl st' => allocate_components q cs' st'
      | inr a => inr a
      end
  end.

(** Modelled from the spec: [QueueBase::CopyElementToSlice]
    (queue_base.cc), the direct slice copy of an element whose entries
    fill its batch slot exactly. *)
Definition CopyElementToSlice (element parent : Tensor) (index : nat)
    : Status * Tensor :=
  if negb (TF_CALL_ALL_TYPES (dtype parent)) then (Unimplemented, parent)
  else
    let slot := NumElements parent / dim_size parent 0 in
    if negb (NumElements element =? slot) then (Internal, parent)
    else (OK, mkTensor (dtype parent) (shape parent)
                (take (index * slot) (data parent) ++ data element ++
                 drop (S index * slot) (data parent))).

(** One iteration of the inner copy loop (lines 183-193). *)
Definition copy_component (dynamic_shape : list bool) (index i : nat)
    (a : Attempt) : Attempt + Attempt :=
  let element := component (nth index (tuples a) []) i in
  let parent := component (tuple a) i in
  let '(s, parent') :=
    if nth i dynamic_shape false
    then CopyElementToLargerSlice element parent index
    else CopyElementToSlice element parent index in
  let a1 :=
    with_context (with_tuple a (<[i := parent']> (tuple a)))
      (SetStatus (context a) s) in
  if negb (ok (status (context a1))) then inr a1 else inl a1.

Fixpoint copy_components (dynamic_shape : list bool) (index : nat)
    (cs : list nat) (a : Attempt) : Attempt + Attempt :=
  match cs with
  | [] => inl a
  | i :: cs' =>
      match copy_component dynamic_shape index i a with
      | inl a' => copy_components dynamic_shape index cs' a'
      | inr a' => inr a'
      end
  end.

Fixpoint copy_tuples (N : nat) (dynamic_shape : list bool)
    (indices : list nat) (a : Attempt) : Attempt + Attempt :=
  match indices with
  | [] => inl a
  | index :: rest =>
      match copy_components dynamic_shape index (seq 0 N) a with
      | inl a' => copy_tuples N dynamic_shape rest a'
      | inr a' => inr a'
      end
  end.

(** The body of [if (attempt->elements_requested == 0)]; every path
    through it returns [kComplete]. *)
Definition assemble (q : PaddingFIFOQueue) (a : Attempt) : Attempt :=
  match allocate_components q (seq 0 (num_components q)) (a, []) with
  | inr a' => a'
  | inl (a1, dynamic_shape) =>
      match copy_tuples (num_components q) dynamic_shape
              (seq 0 (length (tuples a1))) a1 with
      | inr a' => a'
      | inl a2 =>
          mkAttempt (elements_requested a2) (tuple a2) (context a2)
            (cancellation_token a2) [] (tuple a2)
      end
  end.

(** ** The progress function of a dequeue-many attempt (lines 96-204) *)

(** [for (; s > 0; --s)], with [s] iterations left. *)
Fixpoint pop_loop (s : nat) (result : RunResult) (q : PaddingFIFOQueue)
    (a : Attempt) : RunResult * PaddingFIFOQueue * Attempt :=
  match s with
  | 0 => (result, q, a)
  | S s' =>
      let '(t, q1) := DequeueLocked q in
      let a1 :=
        mkAttempt (elements_requested a - 1)%Z (done_callback a) (context a)
          (cancellation_token a) (tuples a ++ [t]) (tuple a) in
      if (elements_requested a1 =? 0)%Z
      then (kComplete, q1, assemble q1 a1)
      else pop_loop s' kProgress q1 a1
  end.

Definition dequeue_many_run (q : PaddingFIFOQueue) (a : Attempt)
    : RunResult * PaddingFIFOQueue * Attempt :=
  let s := size32 q in
  if closed_ q && (s <? elements_requested a)%Z then
    let ctx := SetStatus (context a) OutOfRange in
    if negb (bool_decide (tuples a = [])) then
      let '(ctx', qs) :=
        restore_tuples (num_components q) (rev (tuples a)) ctx (queues_ q) in
      (kComplete, with_queues q qs, with_context a ctx')
    else (kComplete, q, with_context a ctx)
  else pop_loop (Z.to_nat s) kNoProgress q a.

(** ** TryDequeueMany (lines 67-213) *)

(** Modelled from the spec: [QueueBase::ManyOutShape] (queue_base.cc), the
    batch size followed by the component's shape as the base class holds
    it, which has zeros for the dimensions left open. *)
Definition ManyOutShape (q : PaddingFIFOQueue) (i : nat) (batch_size : nat)
    : TensorShape :=
  batch_size :: nth i (component_shapes_ q) [].

(** [FlushUnlocked] is the scheduler of queue_base.cc; it is a parameter. *)
Variable FlushUnlocked : PaddingFIFOQueue -> PaddingFIFOQueue.

(** What a call leaves behind: the queue, the caller's context, the
    cancellation manager, and the tuple [callback] was invoked with before
    the call returned, if it was. *)
Record Outcome := mkOutcome {
  queue_after : PaddingFIFOQueue;
  context_after : OpKernelContext;
  manager_after : CancellationManager;
  callback_invoked : option Tuple
}.

Definition lock_mu (q : PaddingFIFOQueue) : PaddingFIFOQueue :=
  mkQueue (capacity_ q) (component_dtypes_ q) (component_shapes_ q)
    (partial_shapes_ q) (queues_ q) (closed_ q) (dequeue_attempts_ q)
    (S (mu_acquired q)).

Definition emplace_attempt (q : PaddingFIFOQueue) (a : Attempt)
    : PaddingFIFOQueue :=
  mkQueue (capacity_ q) (component_dtypes_ q) (component_shapes_ q)
    (partial_shapes_ q) (queues_ q) (closed_ q) (dequeue_attempts_ q ++ [a])
    (mu_acquired q).

Definition TryDequeueMany (q : PaddingFIFOQueue) (num_elements : Z)
    (ctx : OpKernelContext) (cm : CancellationManager) : Outcome :=
  if (num_elements =? 0)%Z then
    let tuple :=
      map (fun i => allocate_temp ctx (nth i (component_dtypes_ q) 0)
                      (ManyOutShape q i 0))
          (seq 0 (num_components q)) in
    mkOutcome q ctx cm (Some tuple)
  else
    let '(token, cm1) := get_cancellation_token cm in
    let q1 := lock_mu q in
    let '(registered, cm2) := RegisterCallback cm1 token in
    let already_cancelled := negb registered in
    if negb already_cancelled then
      let q2 := emplace_attempt q1 (mkAttempt num_elements [] ctx token [] []) in
      mkOutcome (FlushUnlocked q2) ctx cm2 None
    else mkOutcome q1 (SetStatus ctx Cancelled) cm2 (Some []).

(** ** Validation (lines 215-243) *)

(** Modelled from the spec: [QueueBase::ValidateTupleCommon]
    (queue_base.cc): the tuple has exactly N components and each
    component's element type equals the declared one. *)
Definition ValidateTupleCommon (q : PaddingFIFOQueue) (t : Tuple) : Status :=
  if negb (length t =? num_components q) then InvalidArgument
  else if forallb
            (fun i => dtype (component t i) =? nth i (component_dtypes_ q) 0)
            (seq 0 (length t))
       then OK
       else InvalidArgument.

(** Modelled from the spec: [PartialTensorShape::IsCompatibleWith]
    (tensor_shape.h): same rank, and every fixed dimension has the declared
    size; an open dimension accepts any size. *)
Fixpoint IsCompatibleWith (p : PartialTensorShape) (s : TensorShape) : bool :=
  match p, s with
  | [], [] => true
  | d :: p', n :: s' =>
      ((d <? 0)%Z || (d =? Z.of_nat n)%Z) && IsCompatibleWith p' s'
  | _, _ => false
  end.

Fixpoint validate_shapes (q : PaddingFIFOQueue) (t : Tuple) (cs : list nat)
    : Status :=
  match cs with
  | [] => OK
  | i :: cs' =>
      if negb (IsCompatibleWith (nth i (partial_shapes_ q) [])
                 (shape (component t i)))
      then InvalidArgument
      else validate_shapes q t cs'
  end.

Definition ValidateTuple (q : PaddingFIFOQueue) (t : Tuple) : Status :=
  if negb (ok (ValidateTupleCommon q t)) then ValidateTupleCommon q t
  else validate_shapes q t (seq 0 (length t)).

Fixpoint validate_many_shapes (q : PaddingFIFOQueue) (t : Tuple)
    (batch_size : nat) (cs : list nat) : Status :=
  match cs with
  | [] => OK
  | i :: cs' =>
      let expected_shape :=
        Z.of_nat batch_size :: nth i (partial_shapes_ q) [] in
      if negb (IsCompatibleWith expected_shape (shape (component t i)))
      then InvalidArgument
      else validate_many_shapes q t batch_size cs'
  end.

Definition ValidateManyTuple (q : PaddingFIFOQueue) (t : Tuple) : Status :=
  if negb (ok (ValidateTupleCommon q t)) then ValidateTupleCommon q t
  else validate_many_shapes q t (dim_size (component t 0) 0)
         (seq 0 (length t)).

(** ** MatchesNodeDef (lines 245-267) *)

(** The attributes of a queue node that the checks read. *)
Record NodeDef := mkNodeDef {
  node_op : string;
  attr_capacity : Z;
  attr_component_types : list DataType;
  attr_shapes : list PartialTensorShape
}.

(** Modelled from the spec: compatibility of two declared shapes
    (tensor_shape.h): same rank, and equal sizes wherever both sides fix the
    dimension. *)
Fixpoint PartialIsCompatibleWith (a b : PartialTensorShape) : bool :=
  match a, b with
  | [], [] => true
  | x :: a', y :: b' =>
      ((x <? 0)%Z || (y <? 0)%Z || (x =? y)%Z) && PartialIsCompatibleWith a' b'
  | _, _ => false
  end.

(** Modelled from the spec: [PartialTensorShapeUtils::AreCompatible]
    (tensor_shape.h): as many shapes on both sides, compatible one by
    one. *)
Fixpoint AreCompatible (xs ys : list PartialTensorShape) : bool :=
  match xs, ys with
  | [], [] => true
  | x :: xs', y :: ys' => PartialIsCompatibleWith x y && AreCompatible xs' ys'
  | _, _ => false
  end.

(** Modelled from the spec: [QueueBase::MatchesNodeDefOp],
    [MatchesNodeDefCapacity] and [MatchesNodeDefTypes] (queue_base.cc): the
    request names this kind of queue, and its capacity and component types
    are the queue's. *)
Definition MatchesNodeDefOp (nd : NodeDef) (op : string) : Status :=
  if String.eqb (node_op nd) op then OK else InvalidArgument.

Definition MatchesNodeDefCapacity (nd : NodeDef) (capacity : Z) : Status :=
  if (attr_capacity nd =? capacity)%Z then OK else InvalidArgument.

Definition MatchesNodeDefTypes (q : PaddingFIFOQueue) (nd : NodeDef) : Status :=
  if bool_decide (attr_component_types nd = component_dtypes_ q)
  then OK else InvalidArgument.

Definition CompatibleNodeDefShapes (q : PaddingFIFOQueue) (nd : NodeDef)
    : Status :=
  let requested_shapes := attr_shapes nd in
  if negb (AreCompatible requested_shapes (partial_shapes_ q))
  then InvalidArgument
  else OK.

Definition MatchesNodeDef (q : PaddingFIFOQueue) (nd : NodeDef) : Status :=
  if negb (ok (MatchesNodeDefOp nd "PaddingFIFOQueue")) then
    MatchesNodeDefOp nd "PaddingFIFOQueue"
  else if negb (ok (MatchesNodeDefCapacity nd (capacity_ q))) then
    MatchesNodeDefCapacity nd (capacity_ q)
  else if negb (ok (MatchesNodeDefTypes q nd)) then MatchesNodeDefTypes q nd
  else if negb (ok (CompatibleNodeDefShapes q nd)) then
    CompatibleNodeDefShapes q nd
  else OK.

(** ** Predicates used by the statements *)

(** The store invariant: one container per component, all of one length. *)
Definition store_ok (q : PaddingFIFOQueue) (len : nat) : Prop :=
  length (queues_ q) = num_components q /\
  Forall (fun sub => length sub = len) (queues_ q).

(** The queue was built by the constructor and passed [Initialize]. *)
Definition initialized (q : PaddingFIFOQueue) : Prop :=
  component_shapes_ q = ConvertShapesPartialDimensionsToZero (partial_shapes_ q) /\
  length (component_dtypes_ q) = length (partial_shapes_ q).

(** The context holds no error yet, and [SetStatus] on such a context
    stores the status it is handed. *)
Definition clean (ctx : OpKernelContext) : Prop :=
  status_ ctx = OK /\ forall s, status_rule ctx OK s = s.

(** Every tuple of the batch passed [ValidateTuple]. *)
Definition validated (q : PaddingFIFOQueue) (ts : list Tuple) : Prop :=
  Forall (fun t => ValidateTuple q t = OK) ts.

(** Some of the next [calls] persistent allocations fails. *)
Definition copy_fails (ctx : OpKernelContext) (calls : nat) : bool :=
  existsb (fun k => negb (ok (persistent_outcome ctx k)))
    (seq (persistent_calls ctx) calls).

(** The status held after the allocations numbered [ks], each failure
    being reported through [SetStatus] as DataLoss. *)
Definition status_after_copies (ctx : OpKernelContext) (ks : list nat)
    (st : Status) : Status :=
  fold_left (fun st k => if ok (persistent_outcome ctx k) then st
                         else status_rule ctx st DataLoss) ks st.

(** What the [k]-th next restoration copy of [x] leaves in [element]. *)
Definition restored (ctx : OpKernelContext) (k : nat) (x : Tensor) : Tensor :=
  if ok (persistent_outcome ctx (persistent_calls ctx + k)) then x
  else empty_PersistentTensor.

(** The buffer the allocation loop appends for component [i]. *)
Definition initial_buffer (q : PaddingFIFOQueue) (ts : list Tuple)
    (ctx : OpKernelContext) (i : nat) : Tensor :=
  let element :=
    allocate_temp ctx (nth i (component_dtypes_ q) 0) (output_shape q ts i) in
  if has_dynamic_shape q ts i then snd (SetElementZero element) else element.

(** Element [b] of the batch, component [i]. *)
Definition batch_element (ts : list Tuple) (b i : nat) : Tensor :=
  component (nth b ts []) i.

(** [out] is the output of component [i] with the first [n] batch slots
    written: it has the declared type and the assembled shape and, for a
    component with an open dimension, slot [b < n] holds element [b] in its
    leading region and zero elsewhere, and the slots from [n] on hold
    zero. *)
Definition filled (q : PaddingFIFOQueue) (ts : list Tuple) (i n : nat)
    (out : Tensor) : Prop :=
  dtype out = nth i (component_dtypes_ q) 0 /\
  shape out = output_shape q ts i /\
  (has_dynamic_shape q ts i = true ->
   length (data out) = num_elements (output_shape q ts i) /\
   forall b idx,
     b < length ts -> in_bounds (tail (output_shape q ts i)) idx ->
     tensor_at out (b :: idx) =
       if (b <? n) && in_boundsb (shape (batch_element ts b i)) idx
       then tensor_at (batch_element ts b i) idx
       else 0%Z).

(** The outputs of all components, component [i] with [level i] slots
    written. *)
Definition outputs_filled (q : PaddingFIFOQueue) (ts : list Tuple)
    (level : nat -> nat) (outs : list Tensor) : Prop :=
  length outs = num_components q /\
  forall i, i < num_components q ->
    exists out, outs !! i = Some out /\ filled q ts i (level i) out.

(** The copy of element [b] into the output of component [i], by the path
    the inner loop takes for that component. *)
Definition copy_one (q : PaddingFIFOQueue) (ts : list Tuple) (b i : nat)
    (out : Tensor) : Status * Tensor :=
  if has_dynamic_shape q ts i
  then CopyElementToLargerSlice (batch_element ts b i) out b
  else CopyElementToSlice (batch_element ts b i) out b.

(** What the assembler needs beyond validation to finish: every declared
    element type is one of TF_CALL_ALL_TYPES, and a component with an open
    dimension has rank at most 4. *)
Definition supported (q : PaddingFIFOQueue) : Prop :=
  (forall i, i < num_components q ->
     TF_CALL_ALL_TYPES (nth i (component_dtypes_ q) 0) = true) /\
  (forall i partial, partial_shapes_ q !! i = Some partial ->
     IsFullyDefined partial = false -> length partial <= 4).

(** Two lists of declared shapes are compatible: as many shapes, equal
    ranks, and equal sizes wherever both sides fix the dimension. *)
Definition shapes_compatible (xs ys : list PartialTensorShape) : Prop :=
  Forall2 (Forall2 (fun a b => (a < 0 \/ b < 0 \/ a = b)%Z)) xs ys.

(** Prepending the collected tuples, oldest first, to every container. *)
Definition prepend_tuples (ts : list Tuple)
    (qs : list (list PersistentTensor)) : list (list PersistentTensor) :=
  imap (fun j sub => map (fun t => component t j) ts ++ sub) qs.

(** Popping [k] tuples off the store, oldest first. *)
Fixpoint pop_n (k : nat) (q : PaddingFIFOQueue) : list Tuple * PaddingFIFOQueue :=
  match k with
  | 0 => ([], q)
  | S k' =>
      let '(t, q1) := DequeueLocked q in
      let '(ts, q2) := pop_n k' q1 in
      (t :: ts, q2)
  end.

(** The first [k] tuples of the store, oldest first: tuple [v] holds the
    [v]-th entry of every container. *)
Definition front_tuples (k : nat) (qs : list (list PersistentTensor))
    : list Tuple :=
  map (fun v => map (fun sub => nth v sub empty_PersistentTensor) qs)
    (seq 0 k).

(** ** Two status rules and concrete inputs *)

Definition overwrite_rule (old new : Status) : Status := new.
Definition first_error_rule (old new : Status) : Status :=
  if ok old then new else old.

Definition DT_INT32 : DataType := 3.
Definition all_types (dt : DataType) : bool := negb (dt =? 0).
Definition no_tensor : Tensor := mkTensor 0 [0] [].

Definition ctx0 (rule : Status -> Status -> Status) (outcome : nat -> Status)
    : OpKernelContext :=
  mkContext OK rule outcome 0 (fun k => (100 + Z.of_nat k)%Z).

Definition vec (xs : list Value) : Tensor := mkTensor DT_INT32 [length xs] xs.

(** A queue with one [int32] component of declared shape [[-1]]. *)
Definition ragged_queue (store : list PersistentTensor) (closed : bool)
    : PaddingFIFOQueue :=
  mkQueue 10 [DT_INT32] [[0]] [[(-1)%Z]] [store] closed [] 0.

(** Three elements of shapes [[2]], [[3]] and [[1]]. *)
Definition three_rows : list Tensor :=
  [vec [11; 12]%Z; vec [21; 22; 23]%Z; vec [31]%Z].

Definition fresh_attempt (n : Z) (ctx : OpKernelContext) : Attempt :=
  mkAttempt n [] ctx 0 [] [].

Definition sample_ctx : OpKernelContext := ctx0 first_error_rule (fun _ => OK).

(** The three elements as one-component tuples, in pop order. *)
Definition three_tuples : list (list Tensor) := map (fun x => [x]) three_rows.

(** An attempt that has collected the first two elements and still needs
    three, and a closed store that holds the third. *)
Definition short_attempt (ctx : OpKernelContext) : Attempt :=
  mkAttempt 3 [] ctx 0 (take 2 three_tuples) [].

Definition closed_queue : PaddingFIFOQueue :=
  ragged_queue (drop 2 three_rows) true.

(** A zero-filled [[3, 3]] output. *)
Definition zero_output : Tensor := mkTensor DT_INT32 [3; 3] (replicate 9 0%Z).

Definition idle_manager (cancelled : bool) : CancellationManager :=
  mkCancellationManager cancelled 0 [].

(** A queue with one [int32] component of declared shape [[-1]] and a
    request for the same queue with the shape fixed at [[3]]. *)
Definition open_queue : PaddingFIFOQueue := ragged_queue [] false.
Definition fixed_request : NodeDef :=
  mkNodeDef "PaddingFIFOQueue" 10 [DT_INT32] [[3%Z]].

(** A queue with one [int32] component of declared shape [[2]], a batch
    tuple of two rows of three for the queue of declared shape [[-1]], and
    a set of handled element types that handles none. *)
Definition fixed_queue : PaddingFIFOQueue :=
  mkQueue 10 [DT_INT32] [[2]] [[2%Z]] [[]] false [] 0.

Definition batch_tensor : Tensor :=
  mkTensor DT_INT32 [2; 3] [1; 2; 3; 4; 5; 6]%Z.

Definition no_types (dt : DataType) : bool := false.

(** A context whose second persistent allocation fails. *)
Definition failing_ctx (rule : Status -> Status -> Status) : OpKernelContext :=
  ctx0 rule (fun k => if k =? 1 then Internal else OK).

(** * Properties *)

Lemma lookup_map {A B} (f : A -> B) (l : list A) (i : nat) :
  map f l !! i = f <$> l !! i.
Proof. apply (list_lookup_fmap f l i). Qed.

(** ** Rank guard and dispatch of the padded copy *)

Lemma HandleElementToLargerSlice_shape NDIMS element parent index :
  shape (snd (HandleElementToLargerSlice NDIMS element parent index))
    = shape parent /\
  dtype (snd (HandleElementToLargerSlice NDIMS element parent index))
    = dtype parent.
Proof.
  unfold HandleElementToLargerSlice.
  destruct (_ <? _); simpl; split; reflexivity.
Qed.

Lemma CopyElementToLargerSlice_dispatch element parent index :
  dims parent = dims element + 1 ->
  CopyElementToLargerSlice element parent index =
    if dims element <=? 4
    then HandleElementToLargerSliceWithRank (dims element) element parent index
    else (Unimplemented, parent).
Proof.
  intros Hr. unfold CopyElementToLargerSlice.
  rewrite Hr, Nat.eqb_refl. simpl.
  destruct (dims element) as [|[|[|[|[|n]]]]]; reflexivity.
Qed.

(** C10: when the output's rank is not the element's rank plus one,
    CopyElementToLargerSlice returns Internal and leaves the output as it
    was; hence a copy that gets past the guard (in particular every copy
    that returns OK or Unimplemented) works on an output of rank element
    rank + 1. *)
Theorem CopyElementToLargerSlice_rank_mismatch element parent index :
  (dims parent <> dims element + 1 ->
   CopyElementToLargerSlice element parent index = (Internal, parent)) /\
  (fst (CopyElementToLargerSlice element parent index) <> Internal ->
   dims parent = dims element + 1) /\
  (snd (CopyElementToLargerSlice element parent index) <> parent ->
   dims parent = dims element + 1).
Proof.
  unfold CopyElementToLargerSlice.
  destruct (dims parent =? dims element + 1) eqn:E; simpl.
  - apply Nat.eqb_eq in E. repeat split; intros; congruence.
  - apply Nat.eqb_neq in E. repeat split; intros; congruence.
Qed.


(** ** Dequeueing zero elements and the cancelled registration *)

(** C6: a request for zero elements returns at once: the queue is left
    exactly as it was (no attempt registered, the lock not taken, the store
    not touched), the callback receives one buffer per component, and each
    buffer has batch dimension 0, every open dimension of the declared shape
    at size 0 and every fixed dimension at its declared size. *)
Theorem TryDequeueMany_zero q ctx cm :
  initialized q ->
  exists tuple,
    TryDequeueMany q 0 ctx cm = mkOutcome q ctx cm (Some tuple) /\
    length tuple = num_components q /\
    forall i partial, partial_shapes_ q !! i = Some partial ->
      exists buffer, tuple !! i = Some buffer /\
        dim_size buffer 0 = 0 /\
        dims buffer = S (length partial) /\
        NumElements buffer = 0 /\
        forall j d, partial !! j = Some d ->
          dim_size buffer (S j) = if (d <? 0)%Z then 0 else Z.to_nat d.
Proof.
  intros [Hshapes Hlen]. eexists. split; [reflexivity|].
  split; [rewrite length_map, length_seq; reflexivity|].
  intros i partial Hi.
  assert (Hlt : i < num_components q).
  { unfold num_components. rewrite Hlen. eapply lookup_lt_Some; eauto. }
  eexists. split.
  { rewrite lookup_map, lookup_seq_lt by exact Hlt.
    reflexivity. }
  unfold dim_size, dims, NumElements, ManyOutShape. simpl.
  rewrite Hshapes. unfold ConvertShapesPartialDimensionsToZero.
  erewrite (nth_lookup_Some _ _ _ (map _ partial));
    [|rewrite lookup_map, Hi; reflexivity].
  repeat split.
  - rewrite length_map. reflexivity.
  - intros j d Hj.
    erewrite nth_lookup_Some; [reflexivity|].
    rewrite lookup_map, Hj. reflexivity.
Qed.

(** C8: a request for a non-zero number of elements whose cancellation
    context is already cancelled fails at once with Cancelled: the ledger
    and the store are as before, the scheduler is not run, and the callback
    receives an empty tuple. *)
Theorem TryDequeueMany_already_cancelled q n ctx cm :
  (0 < n)%Z ->
  is_cancelled_ cm = true ->
  clean ctx ->
  status (context_after (TryDequeueMany q n ctx cm)) = Cancelled /\
  dequeue_attempts_ (queue_after (TryDequeueMany q n ctx cm))
    = dequeue_attempts_ q /\
  queues_ (queue_after (TryDequeueMany q n ctx cm)) = queues_ q /\
  queue_after (TryDequeueMany q n ctx cm) = lock_mu q /\
  callback_invoked (TryDequeueMany q n ctx cm) = Some [].
Proof.
  intros Hn Hc [Hs Hrule]. unfold TryDequeueMany.
  destruct (n =? 0)%Z eqn:E; [lia|].
  unfold get_cancellation_token, RegisterCallback. simpl.
  rewrite Hc. simpl. unfold status. simpl.
  rewrite Hs, Hrule. repeat split; reflexivity.
Qed.

(** ** Matching a node definition *)

Lemma PartialIsCompatibleWith_spec a b :
  PartialIsCompatibleWith a b = true <->
  Forall2 (fun x y => (x < 0 \/ y < 0 \/ x = y)%Z) a b.
Proof.
  revert b. induction a as [|x a IH]; intros [|y b]; simpl.
  - split; auto.
  - split; [discriminate|inversion 1].
  - split; [discriminate|inversion 1].
  - rewrite andb_true_iff, IH, !orb_true_iff, !Z.ltb_lt, Z.eqb_eq.
    split.
    + intros [H1 H2]. constructor; tauto.
    + inversion 1; subst. tauto.
Qed.

Lemma AreCompatible_spec xs ys :
  AreCompatible xs ys = true <-> shapes_compatible xs ys.
Proof.
  unfold shapes_compatible.
  revert ys. induction xs as [|x xs IH]; intros [|y ys]; simpl.
  - split; auto.
  - split; [discriminate|inversion 1].
  - split; [discriminate|inversion 1].
  - rewrite andb_true_iff, IH, PartialIsCompatibleWith_spec.
    split.
    + intros [H1 H2]. constructor; assumption.
    + inversion 1; subst. tauto.
Qed.

(** C7, as the code has it: MatchesNodeDef answers OK or InvalidArgument,
    and OK exactly for a request that names this kind of queue, has the
    queue's capacity and component types, and whose component shapes are
    compatible with the queue's declared shapes. *)
Theorem MatchesNodeDef_compatible_shapes q nd :
  (MatchesNodeDef q nd = OK \/ MatchesNodeDef q nd = InvalidArgument) /\
  (MatchesNodeDef q nd = OK <->
   node_op nd = "PaddingFIFOQueue" /\
   attr_capacity nd = capacity_ q /\
   attr_component_types nd = component_dtypes_ q /\
   shapes_compatible (attr_shapes nd) (partial_shapes_ q)).
Proof.
  clear FlushUnlocked TF_CALL_ALL_TYPES empty_PersistentTensor.
  rewrite <- AreCompatible_spec.
  unfold MatchesNodeDef, MatchesNodeDefOp, MatchesNodeDefCapacity,
    MatchesNodeDefTypes, CompatibleNodeDefShapes.
  destruct (String.eqb_spec (node_op nd) "PaddingFIFOQueue") as [Ho|Ho];
    simpl; [|split; [auto|split; [discriminate|tauto]]].
  destruct (Z.eqb_spec (attr_capacity nd) (capacity_ q)) as [Hc|Hc];
    simpl; [|split; [auto|split; [discriminate|tauto]]].
  case_bool_decide as Ht;
    simpl; [|split; [auto|split; [discriminate|tauto]]].
  destruct (AreCompatible (attr_shapes nd) (partial_shapes_ q));
    simpl; split; auto; split; try discriminate; try tauto.
  intros (_ & _ & _ & H). discriminate.
Qed.

(** C7, as stated, fails: a request whose shape [[3]] differs from the
    queue's declared shape [[-1]] is answered OK. *)
Lemma MatchesNodeDef_accepts_other_shapes :
  MatchesNodeDef open_queue fixed_request = OK /\
  attr_capacity fixed_request = capacity_ open_queue /\
  attr_component_types fixed_request = component_dtypes_ open_queue /\
  attr_shapes fixed_request <> partial_shapes_ open_queue.
Proof. repeat split; try reflexivity. discriminate. Qed.

(** ** Restoring a partially dequeued batch *)

Lemma restore_components_cons j js t ctx qs :
  restore_components (j :: js) t ctx qs =
  restore_components js t
    (mkContext
       (if ok (persistent_outcome ctx (persistent_calls ctx)) then status_ ctx
        else status_rule ctx (status_ ctx) DataLoss)
       (status_rule ctx) (persistent_outcome ctx)
       (S (persistent_calls ctx)) (temp_contents ctx))
    (alter (cons (restored ctx 0 (component t j))) j qs).
Proof.
  simpl. unfold GetElementComponent, allocate_persistent, restored.
  rewrite Nat.add_0_r.
  destruct (persistent_outcome ctx (persistent_calls ctx)); reflexivity.
Qed.

Lemma restore_components_context n : forall base t ctx qs,
  fst (restore_components (seq base n) t ctx qs) =
    mkContext
      (status_after_copies ctx (seq (persistent_calls ctx) n) (status_ ctx))
      (status_rule ctx) (persistent_outcome ctx)
      (persistent_calls ctx + n) (temp_contents ctx).
Proof.
  induction n as [|n IH]; intros base t ctx qs.
  - simpl. rewrite Nat.add_0_r. destruct ctx; reflexivity.
  - cbn [seq]. rewrite restore_components_cons, IH. simpl.
    f_equal. lia.
Qed.

Lemma restored_shift ctx st j base x :
  S base <= j ->
  restored (mkContext st (status_rule ctx) (persistent_outcome ctx)
              (S (persistent_calls ctx)) (temp_contents ctx)) (j - S base) x
  = restored ctx (j - base) x.
Proof.
  intros Hj. unfold restored. simpl.
  replace (S (persistent_calls ctx + (j - S base)))
    with (persistent_calls ctx + (j - base)) by lia.
  reflexivity.
Qed.

Lemma restore_components_queues n : forall base t ctx qs j,
  snd (restore_components (seq base n) t ctx qs) !! j =
    (fun sub =>
       if bool_decide (base <= j < base + n)
       then restored ctx (j - base) (component t j) :: sub
       else sub) <$> qs !! j.
Proof.
  induction n as [|n IH]; intros base t ctx qs j.
  - simpl. rewrite bool_decide_eq_false_2 by lia.
    destruct (qs !! j); reflexivity.
  - cbn [seq]. rewrite restore_components_cons, IH.
    rewrite list_lookup_alter. destruct (decide (base = j)) as [->|Hne].
    + rewrite bool_decide_eq_false_2 by lia.
      rewrite bool_decide_eq_true_2 by lia.
      rewrite Nat.sub_diag. destruct (qs !! j); reflexivity.
    + destruct (qs !! j); simpl; [|reflexivity].
      case_bool_decide.
      * rewrite bool_decide_eq_true_2 by lia.
        rewrite restored_shift by lia. reflexivity.
      * rewrite bool_decide_eq_false_2 by lia. reflexivity.
Qed.

Lemma status_after_copies_app ctx ks1 ks2 st :
  status_after_copies ctx (ks1 ++ ks2) st =
  status_after_copies ctx ks2 (status_after_copies ctx ks1 st).
Proof. unfold status_after_copies. apply fold_left_app. Qed.

Lemma restore_tuples_context N visited : forall ctx qs,
  fst (restore_tuples N visited ctx qs) =
    mkContext
      (status_after_copies ctx
         (seq (persistent_calls ctx) (length visited * N)) (status_ ctx))
      (status_rule ctx) (persistent_outcome ctx)
      (persistent_calls ctx + length visited * N) (temp_contents ctx).
Proof.
  induction visited as [|t rest IH]; intros ctx qs.
  - simpl. rewrite Nat.add_0_r. destruct ctx; reflexivity.
  - cbn [restore_tuples length].
    destruct (restore_components (seq 0 N) t ctx qs) as [ctx1 qs1] eqn:E.
    assert (E1 := restore_components_context N 0 t ctx qs).
    rewrite E in E1. simpl in E1. subst ctx1.
    rewrite IH. simpl.
    rewrite seq_app, status_after_copies_app. f_equal.
    symmetry. apply Nat.add_assoc.
Qed.

Lemma restore_tuples_queues N visited : forall ctx qs j,
  snd (restore_tuples N visited ctx qs) !! j =
    (fun sub =>
       (if bool_decide (j < N)
        then rev (imap (fun v t => restored ctx (v * N + j) (component t j))
                    visited)
        else []) ++ sub) <$> qs !! j.
Proof.
  induction visited as [|t rest IH]; intros ctx qs j.
  - simpl. destruct (bool_decide (j < N)), (qs !! j); reflexivity.
  - cbn [restore_tuples].
    destruct (restore_components (seq 0 N) t ctx qs) as [ctx1 qs1] eqn:E.
    assert (E1 := restore_components_context N 0 t ctx qs).
    assert (E2 := restore_components_queues N 0 t ctx qs j).
    rewrite E in E1, E2. simpl in E1, E2. subst ctx1.
    rewrite IH, E2. destruct (qs !! j) as [sub|]; [|reflexivity].
    simpl. f_equal. case_bool_decide as Hj.
    + rewrite bool_decide_eq_true_2 by lia.
      rewrite Nat.sub_0_r, <- app_assoc. simpl. f_equal.
      * f_equal. apply imap_ext. intros v x _. simpl.
        unfold restored. simpl. do 2 f_equal.
        rewrite <- !Nat.add_assoc. reflexivity.
    + rewrite bool_decide_eq_false_2 by lia. reflexivity.
Qed.

Lemma restore_tuples_length N visited ctx qs :
  length (snd (restore_tuples N visited ctx qs)) = length qs.
Proof.
  apply Nat.le_antisymm.
  - destruct (decide (length (snd (restore_tuples N visited ctx qs)) <= length qs)) as [|Hn]; [assumption|].
    exfalso.
    assert (H : is_Some (snd (restore_tuples N visited ctx qs) !! length qs))
      by (apply lookup_lt_is_Some; lia).
    rewrite restore_tuples_queues, lookup_ge_None_2 in H by lia.
    destruct H as [? H]. discriminate.
  - destruct (decide (length qs <= length (snd (restore_tuples N visited ctx qs)))) as [|Hn]; [assumption|].
    exfalso.
    assert (H : snd (restore_tuples N visited ctx qs)
                  !! length (snd (restore_tuples N visited ctx qs)) = None)
      by (apply lookup_ge_None_2; lia).
    rewrite restore_tuples_queues in H.
    destruct (qs !! _) eqn:E; [discriminate|].
    apply lookup_ge_None_1 in E. lia.
Qed.

Lemma status_after_copies_none ctx ks st :
  existsb (fun k => negb (ok (persistent_outcome ctx k))) ks = false ->
  status_after_copies ctx ks st = st.
Proof.
  induction ks as [|k ks IH]; [reflexivity|].
  cbn [existsb]. intros H. apply orb_false_iff in H as [Hk Hks].
  unfold status_after_copies in *. cbn [fold_left].
  destruct (ok (persistent_outcome ctx k)); [|discriminate].
  apply IH. exact Hks.
Qed.

Lemma status_after_copies_keeps ctx ks : forall st,
  (forall old new, old <> OK -> status_rule ctx old new = old) ->
  st <> OK ->
  status_after_copies ctx ks st = st.
Proof.
  intros st Hrule. revert st.
  induction ks as [|k ks IH]; intros st Hst; [reflexivity|].
  unfold status_after_copies in *. simpl.
  destruct (ok (persistent_outcome ctx k)); rewrite ?Hrule by assumption;
    apply IH; assumption.
Qed.

Lemma lookup_prepend_tuples ts (qs : list (list Tensor)) j :
  prepend_tuples ts qs !! j =
    (fun sub => map (fun t => component t j) ts ++ sub) <$> qs !! j.
Proof. unfold prepend_tuples. rewrite list_lookup_imap. reflexivity. Qed.

Lemma DequeueLocked_store q len :
  store_ok q (S len) -> store_ok (snd (DequeueLocked q)) len.
Proof.
  intros [Hn Hall]. split; simpl.
  - rewrite length_map. exact Hn.
  - apply Forall_lookup. intros j sub Hj.
    rewrite lookup_map in Hj.
    destruct (queues_ q !! j) as [sub0|] eqn:E; [|discriminate].
    injection Hj as <-.
    rewrite Forall_lookup in Hall. specialize (Hall _ _ E).
    destruct sub0; simpl in *; lia.
Qed.

Lemma pop_n_prepend k : forall q len,
  store_ok q len -> k <= len ->
  prepend_tuples (fst (pop_n k q)) (queues_ (snd (pop_n k q))) = queues_ q.
Proof.
  induction k as [|k IH]; intros q len Hq Hk.
  - simpl. apply list_eq. intros j. rewrite lookup_prepend_tuples.
    destruct (queues_ q !! j); reflexivity.
  - destruct len as [|len]; [lia|].
    cbn [pop_n].
    destruct (DequeueLocked q) as [t q1] eqn:E.
    assert (Hq1 : store_ok q1 len).
    { replace q1 with (snd (DequeueLocked q)) by (rewrite E; reflexivity).
      apply DequeueLocked_store. exact Hq. }
    specialize (IH q1 len Hq1 ltac:(lia)).
    destruct (pop_n k q1) as [ts q2]. simpl in *.
    injection E as Et Eq1. subst q1. simpl in IH.
    apply list_eq. intros j.
    assert (IHj := f_equal (fun l => l !! j) IH). simpl in IHj.
    rewrite lookup_prepend_tuples in IHj.
    rewrite lookup_prepend_tuples. rewrite lookup_map in IHj.
    destruct (queues_ q2 !! j) as [sub|], (queues_ q !! j) as [sub0|] eqn:E0;
      simpl in *; try discriminate; [|reflexivity].
    injection IHj as IHj. f_equal. rewrite IHj.
    destruct Hq as [_ Hall]. rewrite Forall_lookup in Hall.
    specialize (Hall _ _ E0).
    destruct sub0 as [|x sub0]; [discriminate|]. simpl. f_equal.
    subst t. unfold component.
    erewrite nth_lookup_Some; [reflexivity|].
    rewrite lookup_map, E0. reflexivity.
Qed.

Lemma restore_tuples_store q visited ctx len :
  store_ok q len ->
  store_ok
    (with_queues q
       (snd (restore_tuples (num_components q) visited ctx (queues_ q))))
    (len + length visited).
Proof.
  intros [Hn Hall]. split; simpl.
  - rewrite restore_tuples_length. exact Hn.
  - apply Forall_lookup. intros j sub Hj.
    rewrite restore_tuples_queues in Hj.
    destruct (queues_ q !! j) as [sub0|] eqn:E; [|discriminate].
    injection Hj as <-.
    rewrite Forall_lookup in Hall. specialize (Hall _ _ E).
    apply lookup_lt_Some in E. rewrite Hn in E.
    rewrite bool_decide_eq_true_2 by exact E.
    rewrite length_app, length_rev, length_imap. lia.
Qed.

Lemma copy_fails_false ctx calls k :
  copy_fails ctx calls = false -> k < calls ->
  ok (persistent_outcome ctx (persistent_calls ctx + k)) = true.
Proof.
  unfold copy_fails. intros Hf Hk.
  destruct (ok (persistent_outcome ctx (persistent_calls ctx + k))) eqn:E;
    [reflexivity|].
  assert (Ht : existsb (fun k => negb (ok (persistent_outcome ctx k)))
                 (seq (persistent_calls ctx) calls) = true).
  { apply existsb_exists. exists (persistent_calls ctx + k). split.
    - apply in_seq. lia.
    - rewrite E. reflexivity. }
  congruence.
Qed.

Lemma restore_tuples_all_ok N ts ctx (qs : list (list Tensor)) :
  copy_fails ctx (length ts * N) = false ->
  length qs = N ->
  snd (restore_tuples N (rev ts) ctx qs) = prepend_tuples ts qs.
Proof.
  intros Hok Hn. apply list_eq. intros j.
  rewrite restore_tuples_queues, lookup_prepend_tuples.
  destruct (qs !! j) as [sub|] eqn:E; [|reflexivity].
  apply lookup_lt_Some in E. rewrite Hn in E.
  rewrite bool_decide_eq_true_2 by exact E. simpl. do 2 f_equal.
  rewrite (imap_ext _ (const (fun t => component t j))).
  - rewrite imap_const. change (rev (map (fun t => component t j) (rev ts)) = map (fun t => component t j) ts).
    rewrite map_rev, rev_involutive. reflexivity.
  - intros v t Hv. simpl. unfold restored.
    rewrite (copy_fails_false _ _ _ Hok); [reflexivity|].
    apply lookup_lt_Some in Hv. rewrite length_rev in Hv. nia.
Qed.

Lemma pop_loop_store s : forall result q a len,
  store_ok q len -> s <= len ->
  store_ok (pop_loop s result q a).1.2
    (len - (if (0 <? elements_requested a)%Z &&
               (elements_requested a <=? Z.of_nat s)%Z
            then Z.to_nat (elements_requested a) else s)).
Proof.
  induction s as [|s IH]; intros result q a len Hq Hs.
  - simpl. destruct (_ && _) eqn:E.
    + apply andb_true_iff in E. destruct E as [E1 E2].
      apply Z.ltb_lt in E1. apply Z.leb_le in E2. lia.
    + rewrite Nat.sub_0_r. exact Hq.
  - destruct len as [|len]; [lia|].
    cbn [pop_loop].
    destruct (DequeueLocked q) as [t q1] eqn:E.
    assert (Hq1 : store_ok q1 len).
    { replace q1 with (snd (DequeueLocked q)) by (rewrite E; reflexivity).
      apply DequeueLocked_store. exact Hq. }
    cbn [elements_requested].
    destruct (elements_requested a - 1 =? 0)%Z eqn:E0.
    + apply Z.eqb_eq in E0. simpl.
      replace (elements_requested a) with 1%Z by lia. simpl.
      destruct (Z.leb_spec 1 (Z.of_nat (S s))) as [_|Hlt]; [|lia].
      replace (S len - Z.to_nat 1) with len by lia. exact Hq1.
    + apply Z.eqb_neq in E0.
      specialize (IH kProgress q1
        (mkAttempt (elements_requested a - 1) (done_callback a) (context a)
           (cancellation_token a) (tuples a ++ [t]) (tuple a))
        len Hq1 ltac:(lia)).
      cbn [elements_requested] in IH.
      match goal with |- store_ok _ ?n =>
        match type of IH with store_ok _ ?m => replace n with m; [exact IH|]
        end end.
      destruct (Z.ltb_spec 0 (elements_requested a - 1)),
        (Z.leb_spec (elements_requested a - 1) (Z.of_nat s)),
        (Z.ltb_spec 0 (elements_requested a)),
        (Z.leb_spec (elements_requested a) (Z.of_nat (S s))); simpl; lia.
Qed.

Lemma size32_store q len :
  0 < num_components q -> store_ok q len -> (Z.of_nat len < 2 ^ 31)%Z ->
  size32 q = Z.of_nat len.
Proof.
  intros Hn [Hl Hall] Hlen. unfold size32.
  destruct (queues_ q) as [|sub qs] eqn:E; [simpl in Hl; lia|].
  inversion Hall; subst. simpl nth.
  unfold int32_wrap. rewrite Z.mod_small; lia.
Qed.

(** C9: whatever the progress function of a dequeue-many attempt does to
    the store, it does to every component container alike: the restoration
    pushes one entry per collected tuple onto each container, whether or not
    the copies succeed, and the pop loop pops the same number of entries off
    each, so the containers have one common length afterwards. *)
Theorem dequeue_many_run_store q a len :
  0 < num_components q -> store_ok q len -> (Z.of_nat len < 2 ^ 31)%Z ->
  store_ok (dequeue_many_run q a).1.2
    (if closed_ q && (Z.of_nat len <? elements_requested a)%Z
     then len + length (tuples a)
     else len - (if (0 <? elements_requested a)%Z &&
                    (elements_requested a <=? Z.of_nat len)%Z
                 then Z.to_nat (elements_requested a) else len)).
Proof.
  intros Hn Hq Hlen. unfold dequeue_many_run.
  rewrite (size32_store q len Hn Hq Hlen).
  destruct (closed_ q && (Z.of_nat len <? elements_requested a)%Z).
  - case_bool_decide as Hts; simpl.
    + rewrite Hts. simpl. rewrite Nat.add_0_r. exact Hq.
    + destruct (restore_tuples _ _ _ _) as [ctx' qs] eqn:E. simpl.
      replace qs with (snd (restore_tuples (num_components q) (rev (tuples a))
                              (SetStatus (context a) OutOfRange) (queues_ q)))
        by (rewrite E; reflexivity).
      rewrite <- (length_rev (tuples a)).
      apply restore_tuples_store. exact Hq.
  - rewrite Nat2Z.id. apply pop_loop_store; [exact Hq|lia].
Qed.

(** On a closed queue that holds fewer elements than the attempt still
    needs, the attempt completes and every container grows by one entry per
    collected tuple; when no restoration copy fails, on a context that held
    no error, the status is OutOfRange and every collected tuple is back at
    the front of the store, oldest first, so the store is the one the tuples
    were popped from. *)
Lemma closed_short_restores q a len :
  0 < num_components q -> store_ok q len -> (Z.of_nat len < 2 ^ 31)%Z ->
  closed_ q = true ->
  (Z.of_nat len < elements_requested a)%Z ->
  clean (context a) ->
  let calls := length (tuples a) * num_components q in
  exists q' a',
    dequeue_many_run q a = (kComplete, q', a') /\
    store_ok q' (len + length (tuples a)) /\
    (copy_fails (context a) calls = false ->
     status (context a') = OutOfRange /\
     queues_ q' = prepend_tuples (tuples a) (queues_ q) /\
     forall q0 len0,
       store_ok q0 len0 -> length (tuples a) <= len0 ->
       fst (pop_n (length (tuples a)) q0) = tuples a ->
       queues_ (snd (pop_n (length (tuples a)) q0)) = queues_ q ->
       queues_ q' = queues_ q0).
Proof.
  intros Hn Hq Hlen Hclosed Hshort [Hst Hrule] calls.
  unfold dequeue_many_run.
  rewrite (size32_store q len Hn Hq Hlen), Hclosed.
  destruct (Z.ltb_spec (Z.of_nat len) (elements_requested a)); [|lia].
  simpl andb. cbv iota.
  case_bool_decide as Hts.
  - eexists _, _. split; [reflexivity|]. subst calls.
    rewrite Hts. simpl. unfold status. simpl.
    rewrite Hst, Hrule, Nat.add_0_r.
    split; [exact Hq|]. intros _. split; [reflexivity|]. split.
    + apply list_eq. intros j. rewrite lookup_prepend_tuples.
      destruct (queues_ q !! j); reflexivity.
    + intros q0 len0 _ _ _ Hq0. symmetry. exact Hq0.
  - destruct (restore_tuples _ _ _ _) as [ctx' qs] eqn:E.
    eexists _, _. split; [reflexivity|].
    assert (Ec := restore_tuples_context (num_components q) (rev (tuples a))
                    (SetStatus (context a) OutOfRange) (queues_ q)).
    rewrite E in Ec. simpl in Ec.
    assert (Eqs : qs = snd (restore_tuples (num_components q)
                              (rev (tuples a))
                              (SetStatus (context a) OutOfRange) (queues_ q)))
      by (rewrite E; reflexivity).
    split.
    { cbn [snd fst]. rewrite Eqs, <- (length_rev (tuples a)).
      apply restore_tuples_store. exact Hq. }
    intros Hok. split; [|split].
    + subst ctx'. unfold status. simpl.
      rewrite Hst, Hrule, length_rev.
      apply (status_after_copies_none (SetStatus (context a) OutOfRange)).
      exact Hok.
    + simpl. rewrite Eqs. apply restore_tuples_all_ok; [exact Hok|apply Hq].
    + intros q0 len0 Hq0 Hk Hts0 Hqs0. simpl.
      rewrite Eqs, restore_tuples_all_ok by (try exact Hok; apply Hq).
      rewrite <- Hqs0. rewrite <- Hts0 at 1.
      eapply pop_n_prepend; eassumption.
Qed.

(** Under the rule that keeps the first error ([Status::Update]) the
    status of the same attempt stays OutOfRange whether or not a restoration
    copy fails. *)
Lemma closed_short_keeps_first_error q a len :
  0 < num_components q -> store_ok q len -> (Z.of_nat len < 2 ^ 31)%Z ->
  closed_ q = true ->
  (Z.of_nat len < elements_requested a)%Z ->
  status_ (context a) = OK ->
  status_rule (context a) = first_error_rule ->
  status (context (dequeue_many_run q a).2) = OutOfRange.
Proof.
  intros Hn Hq Hlen Hclosed Hshort Hst Hrule.
  unfold dequeue_many_run.
  rewrite (size32_store q len Hn Hq Hlen), Hclosed.
  destruct (Z.ltb_spec (Z.of_nat len) (elements_requested a)); [|lia].
  simpl andb. cbv iota.
  case_bool_decide as Hts.
  - unfold status. simpl. rewrite Hrule, Hst. reflexivity.
  - destruct (restore_tuples _ _ _ _) as [ctx' qs] eqn:E.
    assert (Ec := restore_tuples_context (num_components q) (rev (tuples a))
                    (SetStatus (context a) OutOfRange) (queues_ q)).
    rewrite E in Ec. simpl in Ec. subst ctx'. unfold status. simpl.
    rewrite Hrule, Hst. simpl.
    apply status_after_copies_keeps; [|discriminate].
    intros old new Hold. simpl. rewrite Hrule. unfold first_error_rule.
    destruct old; simpl; congruence.
Qed.

(** ** Row-major indexing *)

Lemma ravel_lt ds : forall idx,
  in_bounds ds idx -> ravel ds idx < num_elements ds.
Proof.
  unfold in_bounds.
  induction ds as [|d ds IH]; intros idx H; inversion H; subst; simpl.
  - lia.
  - match goal with Hx : Forall2 _ _ ds |- _ => specialize (IH _ Hx) end.
    nia.
Qed.

Lemma unravel_ravel ds : forall idx,
  in_bounds ds idx -> unravel ds (ravel ds idx) = idx.
Proof.
  unfold in_bounds.
  induction ds as [|d ds IH]; intros idx H; inversion H; subst; simpl.
  - reflexivity.
  - match goal with Hx : Forall2 _ _ ds |- _ =>
      pose proof (ravel_lt ds _ Hx) as Hlt; specialize (IH _ Hx) end.
    set (P := num_elements ds) in *. set (r := ravel ds l) in *.
    assert (Hd : (x * P + r) / P = x).
    { rewrite Nat.div_add_l, Nat.div_small; lia. }
    assert (Hm : (x * P + r) mod P = r).
    { rewrite Nat.add_comm, Nat.Div0.mod_add, Nat.mod_small; lia. }
    rewrite Hd, Hm, IH. reflexivity.
Qed.

Lemma in_bounds_length ds idx : in_bounds ds idx -> length idx = length ds.
Proof. apply Forall2_length. Qed.

Lemma in_boundsb_spec ds : forall idx,
  in_boundsb ds idx = true <-> in_bounds ds idx.
Proof.
  unfold in_bounds.
  induction ds as [|d ds IH]; intros [|i idx]; simpl.
  - split; auto.
  - split; [discriminate|inversion 1].
  - split; [discriminate|inversion 1].
  - rewrite andb_true_iff, IH, Nat.ltb_lt. split.
    + intros [H1 H2]. constructor; assumption.
    + inversion 1; subst. tauto.
Qed.

Lemma in_slice_origin sizes : forall idx,
  in_slice (replicate (length sizes) 0) sizes idx = in_boundsb sizes idx.
Proof.
  induction sizes as [|s sizes IH]; intros [|i idx]; simpl; try reflexivity.
  rewrite IH. reflexivity.
Qed.

Lemma zip_with_sub_origin (idx : list nat) : forall n,
  length idx <= n -> zip_with Nat.sub idx (replicate n 0) = idx.
Proof.
  induction idx as [|i idx IH]; intros [|n] H; simpl in *; try reflexivity;
    try lia.
  rewrite IH by lia. rewrite Nat.sub_0_r. reflexivity.
Qed.

Lemma map_nth_seq (l : list nat) :
  map (fun i => nth i l 0) (seq 0 (length l)) = l.
Proof.
  apply list_eq. intros i. rewrite lookup_map.
  destruct (decide (i < length l)) as [Hi|Hi].
  - rewrite lookup_seq_lt by exact Hi. simpl.
    destruct (lookup_lt_is_Some_2 l i Hi) as [x Hx].
    rewrite Hx. erewrite nth_lookup_Some by exact Hx. reflexivity.
  - rewrite lookup_seq_ge by lia. rewrite lookup_ge_None_2 by lia.
    reflexivity.
Qed.

Lemma nth_slice_assign pdims (pdata : list Z) offs sizes src k :
  k < length pdata ->
  nth k (slice_assign pdims pdata offs sizes src) 0%Z =
    if in_slice offs sizes (unravel pdims k)
    then nth (ravel sizes (zip_with Nat.sub (unravel pdims k) offs)) src 0%Z
    else nth k pdata 0%Z.
Proof.
  intros Hk. unfold slice_assign.
  destruct (lookup_lt_is_Some_2 pdata k Hk) as [x Hx].
  erewrite (nth_lookup_Some (imap _ _)).
  2:{ rewrite list_lookup_imap, Hx. reflexivity. }
  simpl. erewrite (nth_lookup_Some pdata) by exact Hx. reflexivity.
Qed.

Lemma num_elements_le esh : forall tgt,
  Forall2 le esh tgt -> num_elements esh <= num_elements tgt.
Proof.
  induction esh as [|e esh IH]; intros tgt H; inversion H; subst; simpl.
  - lia.
  - match goal with Hx : Forall2 _ esh _ |- _ => specialize (IH _ Hx) end.
    nia.
Qed.

(** The padded copy of one element, entry by entry: inside the element's
    extent of its own batch slot the output holds the element's entry,
    everywhere else it holds what it held before. *)
Lemma HandleElementToLargerSlice_at element parent index B tgt b idx :
  shape parent = B :: tgt ->
  length (data parent) = B * num_elements tgt ->
  Forall2 le (shape element) tgt ->
  0 < B -> b < B -> in_bounds tgt idx ->
  fst (HandleElementToLargerSlice (dims element) element parent index) = OK /\
  tensor_at (snd (HandleElementToLargerSlice (dims element) element parent index))
      (b :: idx) =
    if (b =? index) && in_boundsb (shape element) idx
    then tensor_at element idx
    else tensor_at parent (b :: idx).
Proof.
  intros Hsh Hlen Hle HB Hb Hidx.
  unfold HandleElementToLargerSlice, NumElements, dim_size.
  rewrite Hsh. simpl nth. simpl num_elements.
  rewrite Nat.mul_comm, Nat.div_mul by lia.
  pose proof (num_elements_le _ _ Hle) as Hn.
  destruct (Nat.ltb_spec (num_elements tgt) (num_elements (shape element)));
    [lia|].
  split; [reflexivity|]. unfold tensor_at. cbn [snd data shape]. rewrite Hsh.
  assert (Hin : in_bounds (B :: tgt) (b :: idx)) by (constructor; assumption).
  assert (Hlt : ravel (B :: tgt) (b :: idx) < length (data parent))
    by (rewrite Hlen; exact (ravel_lt _ _ Hin)).
  rewrite nth_slice_assign by exact Hlt.
  rewrite (unravel_ravel _ _ Hin).
  unfold dims.
  change (map (dim_size element) (seq 0 (length (shape element))))
    with (map (fun i => nth i (shape element) 0)
            (seq 0 (length (shape element)))).
  rewrite map_nth_seq. cbn [in_slice zip_with].
  rewrite in_slice_origin.
  destruct (Nat.eqb_spec b index) as [->|Hne].
  - rewrite Nat.leb_refl.
    destruct (Nat.ltb_spec index (index + 1)); [|lia]. simpl.
    destruct (in_boundsb (shape element) idx) eqn:Eb; [|reflexivity].
    rewrite zip_with_sub_origin.
    + rewrite Nat.sub_diag. simpl. reflexivity.
    + apply in_boundsb_spec, in_bounds_length in Eb. lia.
  - destruct (Nat.leb_spec index b), (Nat.ltb_spec b (index + 1));
      simpl; try reflexivity. lia.
Qed.

(** ** The padding assembler *)

Lemma SetStatus_clean ctx : clean ctx -> SetStatus ctx OK = ctx.
Proof.
  intros [Hs Hr]. destruct ctx as [st rule po pc tc]. simpl in *. subst st.
  unfold SetStatus. simpl. rewrite Hr. reflexivity.
Qed.

Lemma with_context_id a : with_context a (context a) = a.
Proof. destruct a; reflexivity. Qed.

Lemma allocate_component_ok q i a dynamic_shape :
  clean (context a) ->
  TF_CALL_ALL_TYPES (nth i (component_dtypes_ q) 0) = true ->
  allocate_component q i (a, dynamic_shape) =
    inl (with_tuple a (tuple a ++ [initial_buffer q (tuples a) (context a) i]),
         dynamic_shape ++ [has_dynamic_shape q (tuples a) i]).
Proof.
  intros Hc Ht. unfold allocate_component, initial_buffer.
  destruct (has_dynamic_shape q (tuples a) i); [|reflexivity].
  unfold SetElementZero. cbn [dtype allocate_temp]. rewrite Ht.
  rewrite (SetStatus_clean _ Hc), with_context_id.
  destruct Hc as [Hs _]. unfold status. rewrite Hs. reflexivity.
Qed.

Lemma allocate_components_ok q n : forall base a dynamic_shape,
  clean (context a) ->
  (forall i, base <= i < base + n ->
     TF_CALL_ALL_TYPES (nth i (component_dtypes_ q) 0) = true) ->
  allocate_components q (seq base n) (a, dynamic_shape) =
    inl (with_tuple a
           (tuple a ++
            map (initial_buffer q (tuples a) (context a)) (seq base n)),
         dynamic_shape ++ map (has_dynamic_shape q (tuples a)) (seq base n)).
Proof.
  induction n as [|n IH]; intros base a dyn Hc Ht.
  - simpl. rewrite !app_nil_r. destruct a; reflexivity.
  - cbn [seq allocate_components].
    rewrite allocate_component_ok by (auto; apply Ht; lia).
    rewrite IH; [|exact Hc|intros; apply Ht; lia].
    cbn [map]. destruct a; simpl.
    rewrite <- !app_assoc. reflexivity.
Qed.

Lemma IsCompatibleWith_spec p : forall s,
  IsCompatibleWith p s = true <->
  Forall2 (fun d n => (d < 0)%Z \/ d = Z.of_nat n) p s.
Proof.
  induction p as [|d p IH]; intros [|n s]; simpl.
  - split; auto.
  - split; [discriminate|inversion 1].
  - split; [discriminate|inversion 1].
  - rewrite andb_true_iff, IH, orb_true_iff, Z.ltb_lt, Z.eqb_eq. split.
    + intros [H1 H2]. constructor; assumption.
    + inversion 1; subst. tauto.
Qed.

Lemma validate_shapes_ok q t cs :
  validate_shapes q t cs = OK ->
  forall i, In i cs ->
    IsCompatibleWith (nth i (partial_shapes_ q) []) (shape (component t i))
      = true.
Proof.
  induction cs as [|c cs IH]; simpl; intros H i Hi; [contradiction|].
  destruct (IsCompatibleWith (nth c (partial_shapes_ q) [])
              (shape (component t c))) eqn:E; simpl in H; [|discriminate].
  destruct Hi as [->|Hi]; [exact E|]. apply IH; assumption.
Qed.

Lemma ValidateTuple_ok q t :
  ValidateTuple q t = OK ->
  length t = num_components q /\
  forall i, i < num_components q ->
    dtype (component t i) = nth i (component_dtypes_ q) 0 /\
    IsCompatibleWith (nth i (partial_shapes_ q) []) (shape (component t i))
      = true.
Proof.
  unfold ValidateTuple, ValidateTupleCommon.
  destruct (Nat.eqb_spec (length t) (num_components q)) as [Hl|Hl]; simpl;
    [|discriminate].
  destruct (forallb _ _) eqn:Ef; simpl; [|discriminate].
  intros Hv. split; [exact Hl|]. intros i Hi. split.
  - rewrite forallb_forall in Ef. apply Nat.eqb_eq, Ef, in_seq. lia.
  - apply (validate_shapes_ok _ _ _ Hv), in_seq. lia.
Qed.

Lemma output_shape_eq q ts i partial :
  partial_shapes_ q !! i = Some partial ->
  output_shape q ts i =
    length ts ::
      map (fun j => if (-1 <? nth j partial (-1))%Z
                    then Z.to_nat (nth j partial (-1)%Z)
                    else max_dim ts i j)
          (seq 0 (length partial)).
Proof.
  intros Hp. unfold output_shape.
  rewrite (nth_lookup_Some _ _ _ _ Hp). cbn [length].
  rewrite Nat.sub_succ, Nat.sub_0_r. f_equal.
  apply map_ext. intros j. unfold partial_dim_size.
  rewrite Nat.add_1_r. reflexivity.
Qed.

Lemma fold_max_ge {A} (f : A -> nat) ts : forall acc,
  acc <= fold_left (fun m t => Nat.max m (f t)) ts acc /\
  forall t, In t ts -> f t <= fold_left (fun m t => Nat.max m (f t)) ts acc.
Proof.
  induction ts as [|x ts IH]; intros acc; simpl.
  - split; [lia|contradiction].
  - destruct (IH (Nat.max acc (f x))) as [H1 H2]. split; [lia|].
    intros t [->|Ht]; [lia|auto].
Qed.

Lemma fold_max_attained {A} (f : A -> nat) ts : forall acc,
  fold_left (fun m t => Nat.max m (f t)) ts acc = acc \/
  exists t, In t ts /\ f t = fold_left (fun m t => Nat.max m (f t)) ts acc.
Proof.
  induction ts as [|x ts IH]; intros acc; simpl.
  - left. reflexivity.
  - destruct (IH (Nat.max acc (f x))) as [H|(t & Ht & H)].
    + destruct (Nat.max_spec acc (f x)) as [[_ Hm]|[_ Hm]].
      * right. exists x. split; [left; reflexivity|]. congruence.
      * left. congruence.
    + right. exists t. split; [right; exact Ht|exact H].
Qed.

Lemma max_dim_ge ts i j t :
  In t ts -> dim_size (component t i) j <= max_dim ts i j.
Proof.
  intros Ht. unfold max_dim.
  apply (fold_max_ge (fun t => dim_size (component t i) j) ts 0). exact Ht.
Qed.

Lemma max_dim_attained ts i j :
  ts <> [] ->
  exists t, In t ts /\ dim_size (component t i) j = max_dim ts i j.
Proof.
  intros Hne. unfold max_dim.
  destruct (fold_max_attained (fun t => dim_size (component t i) j) ts 0)
    as [H|H]; [|exact H].
  destruct ts as [|t ts]; [congruence|].
  exists t. split; [left; reflexivity|].
  pose proof (fold_max_ge (fun t => dim_size (component t i) j) (t :: ts) 0)
    as [_ Hge].
  specialize (Hge t (or_introl eq_refl)). lia.
Qed.

(** Every dimension of a validated element fits the assembled slot. *)
Lemma element_fits q ts i partial t :
  partial_shapes_ q !! i = Some partial ->
  In t ts ->
  IsCompatibleWith partial (shape (component t i)) = true ->
  Forall2 le (shape (component t i)) (tail (output_shape q ts i)).
Proof.
  intros Hp Ht Hc. rewrite (output_shape_eq _ _ _ _ Hp). cbn [tail].
  apply IsCompatibleWith_spec in Hc.
  apply Forall2_same_length_lookup. split.
  - rewrite length_map, length_seq. symmetry.
    eapply Forall2_length; exact Hc.
  - intros j e s He Hs.
    rewrite lookup_map in Hs.
    pose proof (Forall2_length _ _ _ Hc) as Hlen.
    assert (Hj : j < length partial).
    { rewrite Hlen. eapply lookup_lt_Some; exact He. }
    rewrite lookup_seq_lt in Hs by exact Hj. simpl in Hs.
    injection Hs as <-.
    destruct (lookup_lt_is_Some_2 partial j Hj) as [d Hd].
    rewrite (nth_lookup_Some _ _ _ _ Hd).
    pose proof (Forall2_lookup_lr _ _ _ _ _ _ Hc Hd He) as Hde.
    destruct (Z.ltb_spec (-1) d).
    + destruct Hde as [Hde|Hde]; lia.
    + assert (e = dim_size (component t i) j) as ->.
      { unfold dim_size. rewrite (nth_lookup_Some _ _ _ _ He). reflexivity. }
      apply max_dim_ge. exact Ht.
Qed.

Lemma has_dynamic_shape_partial q ts i partial :
  partial_shapes_ q !! i = Some partial ->
  has_dynamic_shape q ts i = negb (IsFullyDefined partial).
Proof.
  intros Hp. unfold has_dynamic_shape.
  rewrite (nth_lookup_Some _ _ _ _ Hp). simpl.
  destruct (Z.leb_spec 0 (Z.of_nat (length ts))); [reflexivity|lia].
Qed.

Lemma fixed_element_shape q ts i partial t :
  partial_shapes_ q !! i = Some partial ->
  IsFullyDefined partial = true ->
  IsCompatibleWith partial (shape (component t i)) = true ->
  shape (component t i) = tail (output_shape q ts i).
Proof.
  intros Hp Hf Hc. rewrite (output_shape_eq _ _ _ _ Hp). cbn [tail].
  apply IsCompatibleWith_spec in Hc.
  pose proof (Forall2_length _ _ _ Hc) as Hlen.
  apply list_eq. intros j. rewrite lookup_map.
  destruct (decide (j < length partial)) as [Hj|Hj].
  - rewrite lookup_seq_lt by exact Hj. simpl.
    destruct (lookup_lt_is_Some_2 partial j Hj) as [d Hd].
    destruct (lookup_lt_is_Some_2 (shape (component t i)) j ltac:(lia))
      as [e He].
    rewrite (nth_lookup_Some _ _ _ _ Hd), He.
    pose proof (Forall2_lookup_lr _ _ _ _ _ _ Hc Hd He) as Hde.
    unfold IsFullyDefined in Hf. rewrite forallb_forall in Hf.
    assert (Hd0 : (0 <= d)%Z).
    { apply Z.leb_le, Hf. apply list_elem_of_In.
      eapply list_elem_of_lookup_2. exact Hd. }
    destruct (Z.ltb_spec (-1) d); [|lia].
    destruct Hde as [Hde|Hde]; [lia|]. subst d. rewrite Nat2Z.id.
    reflexivity.
  - rewrite lookup_seq_ge by lia. rewrite lookup_ge_None_2 by lia.
    reflexivity.
Qed.

Lemma HandleElementToLargerSlice_ok NDIMS element parent index B tgt :
  shape parent = B :: tgt ->
  Forall2 le (shape element) tgt ->
  0 < B ->
  HandleElementToLargerSlice NDIMS element parent index =
    (OK, mkTensor (dtype parent) (shape parent)
           (slice_assign (shape parent) (data parent)
              (index :: replicate NDIMS 0)
              (1 :: map (dim_size element) (seq 0 NDIMS)) (data element))).
Proof.
  intros Hsh Hle HB.
  unfold HandleElementToLargerSlice, NumElements, dim_size.
  rewrite Hsh. simpl nth. simpl num_elements.
  rewrite Nat.mul_comm, Nat.div_mul by lia.
  pose proof (num_elements_le _ _ Hle) as Hn.
  destruct (Nat.ltb_spec (num_elements tgt) (num_elements (shape element)));
    [lia|reflexivity].
Qed.

Section Batch.

Variable q : PaddingFIFOQueue.
Variable ts : list Tuple.
Hypothesis Hinit : initialized q.
Hypothesis Hvalid : validated q ts.
Hypothesis Hsupp : supported q.
Variable ctx : OpKernelContext.
Hypothesis Hclean : clean ctx.

Lemma batch_element_valid b i :
  b < length ts -> i < num_components q ->
  exists partial,
    partial_shapes_ q !! i = Some partial /\
    In (nth b ts []) ts /\
    dtype (batch_element ts b i) = nth i (component_dtypes_ q) 0 /\
    IsCompatibleWith partial (shape (batch_element ts b i)) = true.
Proof.
  intros Hb Hi. destruct Hinit as [_ Hlen].
  destruct (lookup_lt_is_Some_2 (partial_shapes_ q) i) as [partial Hp].
  { rewrite <- Hlen. exact Hi. }
  exists partial. split; [exact Hp|].
  assert (Hin : In (nth b ts []) ts) by (apply nth_In; exact Hb).
  split; [exact Hin|].
  unfold validated in Hvalid. rewrite Forall_forall in Hvalid.
  assert (Hv : ValidateTuple q (nth b ts []) = OK).
  { apply Hvalid, list_elem_of_In, Hin. }
  destruct (ValidateTuple_ok _ _ Hv) as [_ Hall].
  destruct (Hall i Hi) as [Hd Hc].
  rewrite (nth_lookup_Some _ _ _ _ Hp) in Hc. split; assumption.
Qed.

Lemma copy_one_ok b i out :
  b < length ts -> i < num_components q ->
  filled q ts i b out ->
  fst (copy_one q ts b i out) = OK /\
  filled q ts i (S b) (snd (copy_one q ts b i out)).
Proof.
  intros Hb Hi (Hdt & Hsh & Hdyn).
  destruct (batch_element_valid b i Hb Hi) as (partial & Hp & Hin & Hed & Hec).
  destruct Hsupp as [Htypes Hranks].
  unfold copy_one.
  pose proof (has_dynamic_shape_partial q ts i partial Hp) as Hd.
  pose proof (output_shape_eq q ts i partial Hp) as Hos.
  assert (Hrank : dims (batch_element ts b i) = length partial).
  { apply IsCompatibleWith_spec, Forall2_length in Hec. unfold dims. lia. }
  assert (Hshape : shape out = length ts :: tail (output_shape q ts i)).
  { rewrite Hsh, Hos. reflexivity. }
  destruct (has_dynamic_shape q ts i) eqn:Edyn.
  - (* padded copy *)
    assert (Hfd : IsFullyDefined partial = false)
      by (destruct (IsFullyDefined partial); [discriminate|reflexivity]).
    destruct (Hdyn eq_refl) as [Hlen Hat].
    rewrite CopyElementToLargerSlice_dispatch.
    2:{ unfold dims at 1. rewrite Hsh, Hos. cbn [length].
        rewrite length_map, length_seq. lia. }
    pose proof (Hranks i partial Hp Hfd) as Hr4.
    destruct (Nat.leb_spec (dims (batch_element ts b i)) 4); [|lia].
    unfold HandleElementToLargerSliceWithRank.
    rewrite Hed, (Htypes i Hi).
    assert (Hfit : Forall2 le (shape (batch_element ts b i))
                     (tail (output_shape q ts i))).
    { eapply element_fits; eassumption. }
    assert (Hlen' : length (data out) =
                    length ts * num_elements (tail (output_shape q ts i))).
    { rewrite Hlen, Hos. reflexivity. }
    split.
    + erewrite HandleElementToLargerSlice_ok; eauto; lia.
    + split; [|split].
      * rewrite <- Hdt. apply HandleElementToLargerSlice_shape.
      * rewrite <- Hsh. apply HandleElementToLargerSlice_shape.
      * intros _. split.
        { erewrite HandleElementToLargerSlice_ok; eauto; try lia.
          cbn [snd data]. unfold slice_assign. rewrite length_imap.
          exact Hlen. }
        intros b' idx Hb' Hidx.
        destruct (HandleElementToLargerSlice_at (batch_element ts b i) out b
                    (length ts) (tail (output_shape q ts i)) b' idx
                    Hshape Hlen' Hfit) as [_ Heq]; try lia; try assumption.
        rewrite Heq, (Hat b' idx Hb' Hidx).
        destruct (Nat.eqb_spec b' b) as [->|Hne]; simpl.
        { destruct (Nat.ltb_spec b (S b)); [|lia].
          destruct (Nat.ltb_spec b b); [lia|]. simpl.
          destruct (in_boundsb _ idx); reflexivity. }
        destruct (Nat.ltb_spec b' (S b)), (Nat.ltb_spec b' b);
          try reflexivity; lia.
  - (* direct slice copy *)
    assert (Hfd : IsFullyDefined partial = true)
      by (destruct (IsFullyDefined partial); [reflexivity|discriminate]).
    unfold CopyElementToSlice. rewrite Hdt, (Htypes i Hi). simpl negb.
    unfold NumElements, dim_size. rewrite Hshape. simpl nth.
    simpl num_elements.
    rewrite (Nat.mul_comm (length ts)), Nat.div_mul by lia.
    unfold batch_element.
    rewrite (fixed_element_shape q ts i partial _ Hp Hfd Hec).
    rewrite Nat.eqb_refl. cbn [negb fst snd]. split; [reflexivity|].
    split; [reflexivity|]. split; [|congruence].
    cbn [shape]. rewrite Hos. reflexivity.
Qed.

Lemma nth_dynamic_shape i :
  i < num_components q ->
  nth i (map (has_dynamic_shape q ts) (seq 0 (num_components q))) false
    = has_dynamic_shape q ts i.
Proof.
  intros Hi. erewrite nth_lookup_Some; [reflexivity|].
  rewrite lookup_map, lookup_seq_lt by exact Hi. reflexivity.
Qed.

Lemma copy_component_ok req done tok level outs b i :
  b < length ts -> i < num_components q ->
  outputs_filled q ts level outs -> level i = b ->
  exists outs',
    copy_component (map (has_dynamic_shape q ts) (seq 0 (num_components q)))
      b i (mkAttempt req done ctx tok ts outs)
    = inl (mkAttempt req done ctx tok ts outs') /\
    outputs_filled q ts (fun c => if c =? i then S b else level c) outs'.
Proof.
  intros Hb Hi [Hlen Hall] Hlevel.
  destruct (Hall i Hi) as (out & Hout & Hf). rewrite Hlevel in Hf.
  destruct (copy_one_ok b i out Hb Hi Hf) as [Hok Hf'].
  exists (<[i := snd (copy_one q ts b i out)]> outs). split.
  - unfold copy_component. cbn [tuples tuple context].
    rewrite (nth_dynamic_shape i Hi).
    assert (Hcomp : component outs i = out)
      by (unfold component; apply (nth_lookup_Some _ _ _ _ Hout)).
    rewrite Hcomp.
    change (if has_dynamic_shape q ts i
            then CopyElementToLargerSlice (component (nth b ts []) i) out b
            else CopyElementToSlice (component (nth b ts []) i) out b)
      with (copy_one q ts b i out).
    destruct (copy_one q ts b i out) as [s out']. simpl in Hok. subst s.
    unfold with_context, with_tuple.
    cbn [elements_requested done_callback context cancellation_token
           tuples tuple].
    rewrite (SetStatus_clean _ Hclean).
    destruct Hclean as [Hs _]. unfold status. rewrite Hs. reflexivity.
  - split; [rewrite length_insert; exact Hlen|].
    intros c Hc. destruct (Nat.eqb_spec c i) as [->|Hne].
    + eexists. split; [|exact Hf'].
      apply list_lookup_insert_eq. rewrite Hlen. exact Hi.
    + destruct (Hall c Hc) as (o & Ho & Hfo).
      exists o. split; [|exact Hfo].
      rewrite list_lookup_insert_ne by congruence. exact Ho.
Qed.

Lemma copy_components_ok req done tok b n : forall base level outs,
  b < length ts -> base + n <= num_components q ->
  outputs_filled q ts level outs ->
  (forall c, base <= c < base + n -> level c = b) ->
  exists outs',
    copy_components (map (has_dynamic_shape q ts) (seq 0 (num_components q)))
      b (seq base n) (mkAttempt req done ctx tok ts outs)
    = inl (mkAttempt req done ctx tok ts outs') /\
    outputs_filled q ts
      (fun c => if (base <=? c) && (c <? base + n) then S b else level c) outs'.
Proof.
  induction n as [|n IH]; intros base level outs Hb Hn Hf Hlevel.
  - exists outs. split; [reflexivity|].
    destruct Hf as [Hlen Hall]. split; [exact Hlen|].
    intros c Hc. destruct (Hall c Hc) as (o & Ho & Hfo).
    exists o. split; [exact Ho|].
    destruct (Nat.leb_spec base c), (Nat.ltb_spec c (base + 0)); simpl;
      try exact Hfo; lia.
  - cbn [seq copy_components].
    destruct (copy_component_ok req done tok level outs b base Hb
                ltac:(lia) Hf ltac:(apply Hlevel; lia)) as (outs1 & E1 & Hf1).
    rewrite E1.
    destruct (IH (S base) _ outs1 Hb ltac:(lia) Hf1) as (outs2 & E2 & Hf2).
    { intros c Hc. destruct (Nat.eqb_spec c base); [lia|].
      apply Hlevel. lia. }
    exists outs2. split; [exact E2|].
    destruct Hf2 as [Hlen Hall]. split; [exact Hlen|].
    intros c Hc. destruct (Hall c Hc) as (o & Ho & Hfo).
    exists o. split; [exact Ho|].
    destruct (Nat.leb_spec (S base) c), (Nat.ltb_spec c (S base + n)),
      (Nat.eqb_spec c base), (Nat.leb_spec base c),
      (Nat.ltb_spec c (base + S n)); simpl in *; try exact Hfo; lia.
Qed.

Lemma outputs_filled_ext level level' outs :
  (forall c, c < num_components q -> level c = level' c) ->
  outputs_filled q ts level outs -> outputs_filled q ts level' outs.
Proof.
  intros Hext [Hlen Hall]. split; [exact Hlen|].
  intros c Hc. destruct (Hall c Hc) as (o & Ho & Hfo).
  exists o. split; [exact Ho|]. rewrite <- (Hext c Hc). exact Hfo.
Qed.

Lemma copy_tuples_ok req done tok m : forall b0 outs,
  b0 + m <= length ts ->
  outputs_filled q ts (fun _ => b0) outs ->
  exists outs',
    copy_tuples (num_components q)
      (map (has_dynamic_shape q ts) (seq 0 (num_components q)))
      (seq b0 m) (mkAttempt req done ctx tok ts outs)
    = inl (mkAttempt req done ctx tok ts outs') /\
    outputs_filled q ts (fun _ => b0 + m) outs'.
Proof.
  induction m as [|m IH]; intros b0 outs Hm Hf.
  - exists outs. split; [reflexivity|]. rewrite Nat.add_0_r. exact Hf.
  - cbn [seq copy_tuples].
    destruct (copy_components_ok req done tok b0 (num_components q) 0
                (fun _ => b0) outs ltac:(lia) ltac:(lia) Hf
                ltac:(reflexivity)) as (outs1 & E1 & Hf1).
    rewrite E1.
    destruct (IH (S b0) outs1 ltac:(lia)) as (outs2 & E2 & Hf2).
    { eapply outputs_filled_ext; [|exact Hf1].
      intros c Hc. simpl.
      destruct (Nat.ltb_spec c (num_components q)); [reflexivity|lia]. }
    exists outs2. split; [exact E2|].
    replace (b0 + S m) with (S b0 + m) by lia. exact Hf2.
Qed.

End Batch.

Lemma nth_replicate_zero k n : nth k (replicate n 0%Z) 0%Z = 0%Z.
Proof.
  revert k. induction n as [|n IH]; intros [|k]; simpl; auto.
Qed.

Lemma initial_buffer_filled q ts ctx i :
  TF_CALL_ALL_TYPES (nth i (component_dtypes_ q) 0) = true ->
  filled q ts i 0 (initial_buffer q ts ctx i).
Proof.
  intros Ht. unfold initial_buffer, SetElementZero, allocate_temp.
  cbn [dtype shape data]. rewrite Ht.
  destruct (has_dynamic_shape q ts i) eqn:E; unfold filled; rewrite E.
  - cbn [snd dtype shape data]. split; [reflexivity|].
    split; [reflexivity|]. intros _. split.
    + rewrite length_replicate, length_map, length_seq. reflexivity.
    + intros b idx _ _. unfold tensor_at. cbn [data].
      rewrite nth_replicate_zero. reflexivity.
  - cbn [dtype shape]. split; [reflexivity|]. split; [reflexivity|].
    discriminate.
Qed.

(** A validated batch of supported components is assembled without
    error: the attempt ends with the outputs bound to its callback, every
    slot written. *)
Lemma assemble_ok q a :
  initialized q -> validated q (tuples a) -> supported q ->
  clean (context a) -> tuple a = [] ->
  exists outs,
    assemble q a =
      mkAttempt (elements_requested a) outs (context a)
        (cancellation_token a) [] outs /\
    outputs_filled q (tuples a) (fun _ => length (tuples a)) outs.
Proof.
  intros Hinit Hvalid Hsupp Hclean Hempty.
  unfold assemble.
  rewrite allocate_components_ok;
    [|exact Hclean|intros i Hi; apply Hsupp; lia].
  rewrite Hempty. cbn [app].
  destruct a as [req done ctx tok ts outs0]. cbn in *. subst outs0.
  unfold with_tuple. cbn.
  destruct (copy_tuples_ok q ts Hinit Hvalid Hsupp ctx Hclean req done tok
              (length ts) 0
              (map (initial_buffer q ts ctx) (seq 0 (num_components q))))
    as (outs & E & Hf).
  - lia.
  - split; [rewrite length_map, length_seq; reflexivity|].
    intros i Hi. eexists. split.
    + rewrite lookup_map, lookup_seq_lt by exact Hi. reflexivity.
    + apply initial_buffer_filled, Hsupp. exact Hi.
  - rewrite E. exists outs. split; [reflexivity|exact Hf].
Qed.

(** C2: for a batch of B validated tuples the assembler delivers, for
    every component, a buffer of shape B followed by the target shape; each
    dimension of the target shape is the declared size where the declared
    shape fixes it, and the largest size of that dimension among the B
    elements where it is left open. *)
Theorem assemble_output_shape q a i partial :
  initialized q -> validated q (tuples a) -> supported q ->
  clean (context a) -> tuple a = [] -> tuples a <> [] ->
  partial_shapes_ q !! i = Some partial ->
  exists out target,
    done_callback (assemble q a) !! i = Some out /\
    shape out = length (tuples a) :: target /\
    length target = length partial /\
    forall j d, partial !! j = Some d ->
      exists s, target !! j = Some s /\
        ((0 <= d)%Z -> Z.of_nat s = d) /\
        ((d < 0)%Z ->
         (forall t, In t (tuples a) -> dim_size (component t i) j <= s) /\
         exists t, In t (tuples a) /\ dim_size (component t i) j = s).
Proof.
  intros Hinit Hvalid Hsupp Hclean Hempty Hne Hp.
  destruct (assemble_ok q a Hinit Hvalid Hsupp Hclean Hempty)
    as (outs & E & Hlen & Hall).
  rewrite E. cbn [done_callback].
  assert (Hi : i < num_components q).
  { unfold num_components. rewrite (proj2 Hinit).
    eapply lookup_lt_Some. exact Hp. }
  destruct (Hall i Hi) as (out & Hout & _ & Hsh & _).
  exists out, (tail (output_shape q (tuples a) i)).
  split; [exact Hout|].
  rewrite Hsh, (output_shape_eq _ _ _ _ Hp). cbn [tail].
  split; [reflexivity|]. split; [rewrite length_map, length_seq; reflexivity|].
  intros j d Hd.
  assert (Hj : j < length partial) by (eapply lookup_lt_Some; exact Hd).
  eexists. split.
  { rewrite lookup_map, lookup_seq_lt by exact Hj. reflexivity. }
  cbn. rewrite (nth_lookup_Some _ _ _ _ Hd). split.
  - intros H0. destruct (Z.ltb_spec (-1) d); lia.
  - intros H0. destruct (Z.ltb_spec (-1) d); [lia|]. split.
    + intros t Ht. apply max_dim_ge. exact Ht.
    + apply max_dim_attained. exact Hne.
Qed.

(** In the assembler the rank guard of the padded copy always passes:
    the output of a component has one dimension more than each validated
    element of that component. *)
Lemma assembled_rank q ts b i out :
  initialized q -> validated q ts ->
  b < length ts -> i < num_components q ->
  shape out = output_shape q ts i ->
  dims out = dims (batch_element ts b i) + 1.
Proof.
  intros Hinit Hvalid Hb Hi Hsh.
  destruct (batch_element_valid q ts Hinit Hvalid b i Hb Hi)
    as (partial & Hp & _ & _ & Hec).
  unfold dims at 1. rewrite Hsh, (output_shape_eq q ts i partial Hp).
  cbn [length]. rewrite length_map, length_seq.
  apply IsCompatibleWith_spec, Forall2_length in Hec. unfold dims. lia.
Qed.

(** C4: HandleElementToLargerSlice returns Internal exactly when the
    element has more entries than one batch slot of the output, and OK
    otherwise; and for a validated batch, no padded copy into an output of
    the assembled shape returns Internal. *)
Theorem padded_copy_internal q ts b i NDIMS element parent index out :
  dim_size parent 0 <> 0 ->
  initialized q -> validated q ts ->
  b < length ts -> i < num_components q ->
  shape out = output_shape q ts i ->
  (fst (HandleElementToLargerSlice NDIMS element parent index) = Internal <->
   NumElements parent / dim_size parent 0 < NumElements element) /\
  (fst (HandleElementToLargerSlice NDIMS element parent index) = OK <->
   NumElements element <= NumElements parent / dim_size parent 0) /\
  fst (CopyElementToLargerSlice (batch_element ts b i) out b) <> Internal.
Proof.
  intros _ Hinit Hvalid Hb Hi Hsh.
  split; [|split].
  - unfold HandleElementToLargerSlice.
    destruct (Nat.ltb_spec (NumElements parent / dim_size parent 0)
                (NumElements element)); simpl; split; intros; try lia;
      try reflexivity; discriminate.
  - unfold HandleElementToLargerSlice.
    destruct (Nat.ltb_spec (NumElements parent / dim_size parent 0)
                (NumElements element)); simpl; split; intros; try lia;
      try reflexivity; discriminate.
  - destruct (batch_element_valid q ts Hinit Hvalid b i Hb Hi)
      as (partial & Hp & Hin & Hed & Hec).
    pose proof (output_shape_eq q ts i partial Hp) as Hos.
    rewrite CopyElementToLargerSlice_dispatch
      by (eapply assembled_rank; eassumption).
    destruct (dims (batch_element ts b i) <=? 4); [|discriminate].
    unfold HandleElementToLargerSliceWithRank.
    destruct (TF_CALL_ALL_TYPES _); [|discriminate].
    erewrite HandleElementToLargerSlice_ok.
    + discriminate.
    + rewrite Hsh, Hos. reflexivity.
    + change (map _ (seq 0 (length partial)))
        with (tail (length ts :: map (fun j => if (-1 <? nth j partial (-1))%Z
                    then Z.to_nat (nth j partial (-1)%Z)
                    else max_dim ts i j) (seq 0 (length partial)))).
      rewrite <- Hos. eapply element_fits; eassumption.
    + lia.
Qed.


(** * Further properties *)

(** ** Shapes and validation *)

(** The shapes handed to the base class: one per declared shape, of the
    same rank, with each open dimension at 0 and each fixed dimension at its
    declared size; such a shape is compatible with the declared one, and a
    fully fixed declared shape is handed over unchanged. *)
Theorem ConvertShapes_resolved (partial_shapes : list PartialTensorShape)
    i partial :
  partial_shapes !! i = Some partial ->
  length (ConvertShapesPartialDimensionsToZero partial_shapes)
    = length partial_shapes /\
  exists sh,
    ConvertShapesPartialDimensionsToZero partial_shapes !! i = Some sh /\
    length sh = length partial /\
    IsCompatibleWith partial sh = true /\
    (forall j d, partial !! j = Some d ->
       sh !! j = Some (if (d <? 0)%Z then 0 else Z.to_nat d)) /\
    (IsFullyDefined partial = true -> map Z.of_nat sh = partial).
Proof.
  intros Hp. unfold ConvertShapesPartialDimensionsToZero.
  split; [apply length_map|].
  eexists. split; [rewrite lookup_map, Hp; reflexivity|].
  split; [apply length_map|]. split; [|split].
  - clear Hp. induction partial as [|d partial IH]; [reflexivity|].
    simpl. rewrite IH, andb_true_r.
    destruct (Z.ltb_spec d 0); [reflexivity|].
    simpl. apply Z.eqb_eq. lia.
  - intros j d Hd. rewrite lookup_map, Hd. reflexivity.
  - clear Hp. induction partial as [|d partial IH]; [reflexivity|].
    simpl. intros Hf. apply andb_true_iff in Hf as [Hd Hf].
    apply Z.leb_le in Hd. rewrite (IH Hf).
    destruct (Z.ltb_spec d 0); [lia|]. f_equal. lia.
Qed.

Lemma validate_shapes_spec q t cs :
  (validate_shapes q t cs = OK \/ validate_shapes q t cs = InvalidArgument) /\
  (validate_shapes q t cs = OK <->
   forall i, In i cs ->
     IsCompatibleWith (nth i (partial_shapes_ q) []) (shape (component t i))
       = true).
Proof.
  induction cs as [|c cs [IH1 IH2]]; simpl.
  - split; [auto|]. split; [contradiction|reflexivity].
  - destruct (IsCompatibleWith (nth c (partial_shapes_ q) [])
                (shape (component t c))) eqn:E; simpl.
    + split; [exact IH1|]. rewrite IH2. split.
      * intros H i [<-|Hi]; auto.
      * intros H i Hi. apply H. right. exact Hi.
    + split; [auto|]. split; [discriminate|].
      intros H. rewrite (H c (or_introl eq_refl)) in E. discriminate.
Qed.

(** ValidateTuple answers OK or InvalidArgument, and OK exactly for a
    tuple that has one component per declared component, each of the
    declared type and of a shape compatible with the declared shape. *)
Theorem ValidateTuple_spec q t :
  (ValidateTuple q t = OK \/ ValidateTuple q t = InvalidArgument) /\
  (ValidateTuple q t = OK <->
   length t = num_components q /\
   forall i, i < num_components q ->
     dtype (component t i) = nth i (component_dtypes_ q) 0 /\
     IsCompatibleWith (nth i (partial_shapes_ q) []) (shape (component t i))
       = true).
Proof.
  unfold ValidateTuple, ValidateTupleCommon.
  destruct (Nat.eqb_spec (length t) (num_components q)) as [Hl|Hl]; simpl.
  2:{ split; [auto|]. split; [discriminate|]. intros [H _]. contradiction. }
  destruct (forallb _ _) eqn:Ef; simpl.
  - destruct (validate_shapes_spec q t (seq 0 (length t))) as [H1 H2].
    split; [exact H1|]. rewrite H2. rewrite forallb_forall in Ef. split.
    + intros H. split; [exact Hl|]. intros i Hi. split.
      * apply Nat.eqb_eq, Ef, in_seq. lia.
      * apply H, in_seq. lia.
    + intros [_ H] i Hi. apply in_seq in Hi. apply H. lia.
  - split; [auto|]. split; [discriminate|]. intros [_ H].
    assert (Ht : forallb
              (fun i => dtype (component t i) =? nth i (component_dtypes_ q) 0)
              (seq 0 (length t)) = true).
    { apply forallb_forall. intros i Hi. apply in_seq in Hi.
      apply Nat.eqb_eq, H. lia. }
    congruence.
Qed.

Lemma validate_many_shapes_ok q t batch_size cs :
  validate_many_shapes q t batch_size cs = OK ->
  forall i, In i cs ->
    IsCompatibleWith (Z.of_nat batch_size :: nth i (partial_shapes_ q) [])
      (shape (component t i)) = true.
Proof.
  induction cs as [|c cs IH]; cbn [validate_many_shapes In]; intros H i Hi;
    [contradiction|].
  destruct (IsCompatibleWith
              (Z.of_nat batch_size :: nth c (partial_shapes_ q) [])
              (shape (component t c))) eqn:E; cbn [negb] in H;
    [|discriminate].
  destruct Hi as [<-|Hi]; [exact E|]. apply IH; assumption.
Qed.

(** A batch tuple accepted by ValidateManyTuple has one component per
    declared component, each of the declared type; all components have the
    leading dimension of component 0, and what follows it is compatible with
    the declared shape. *)
Theorem ValidateManyTuple_batch q t :
  ValidateManyTuple q t = OK ->
  length t = num_components q /\
  forall i, i < num_components q ->
    dtype (component t i) = nth i (component_dtypes_ q) 0 /\
    exists rest,
      shape (component t i) = dim_size (component t 0) 0 :: rest /\
      IsCompatibleWith (nth i (partial_shapes_ q) []) rest = true.
Proof.
  unfold ValidateManyTuple, ValidateTupleCommon.
  destruct (Nat.eqb_spec (length t) (num_components q)) as [Hl|Hl]; simpl;
    [|discriminate].
  destruct (forallb _ _) eqn:Ef; simpl; [|discriminate].
  intros Hv. split; [exact Hl|]. intros i Hi. split.
  - rewrite forallb_forall in Ef. apply Nat.eqb_eq, Ef, in_seq. lia.
  - pose proof (validate_many_shapes_ok _ _ _ _ Hv i
                  ltac:(apply in_seq; lia)) as Hc.
    destruct (shape (component t i)) as [|n rest]; [discriminate|].
    simpl in Hc. apply andb_true_iff in Hc as [Hn Hc].
    exists rest. split; [|exact Hc]. f_equal.
    apply orb_true_iff in Hn as [Hn|Hn].
    + apply Z.ltb_lt in Hn. lia.
    + apply Z.eqb_eq in Hn. lia.
Qed.

(** The slices of an accepted batch tuple are acceptable tuples: a tuple
    with the batch tuple's element types whose shapes are the batch tuple's
    shapes without the leading dimension passes ValidateTuple. *)
Theorem ValidateManyTuple_slices q t t' :
  ValidateManyTuple q t = OK ->
  length t' = length t ->
  (forall i, i < num_components q ->
     dtype (component t' i) = dtype (component t i) /\
     shape (component t' i) = tail (shape (component t i))) ->
  ValidateTuple q t' = OK.
Proof.
  intros Hv Hl Hs. destruct (ValidateManyTuple_batch q t Hv) as [Hn Hall].
  apply ValidateTuple_spec. split; [congruence|].
  intros i Hi. destruct (Hall i Hi) as (Hd & rest & Hsh & Hc).
  destruct (Hs i Hi) as [Hd' Hs']. split; [congruence|].
  rewrite Hs', Hsh. exact Hc.
Qed.

(** A queue built by the constructor passes Initialize exactly when the
    base class does and there are as many declared shapes as element types;
    an error of the base class is passed on; and a queue that passed holds
    the zero-resolved shapes of its declared shapes. *)
Theorem Initialize_constructed base capacity
    (component_dtypes : list DataType)
    (partial_shapes : list PartialTensorShape) :
  let q := new_PaddingFIFOQueue capacity component_dtypes partial_shapes in
  (Initialize base q = OK <->
   base = OK /\ length component_dtypes = length partial_shapes) /\
  (base <> OK -> Initialize base q = base) /\
  (base = OK -> length component_dtypes <> length partial_shapes ->
   Initialize base q = InvalidArgument) /\
  (Initialize base q = OK -> initialized q).
Proof.
  unfold Initialize, initialized. cbn.
  destruct (Nat.eqb_spec (length component_dtypes) (length partial_shapes))
    as [Hl|Hl]; destruct base; simpl; repeat split; intros;
    try discriminate; try congruence; try tauto;
    match goal with H : _ /\ _ |- _ => destruct H; congruence end.
Qed.

(** ** The assembled shape *)

(** For a component whose declared shape is fully fixed the assembled
    shape is the batch size followed by the declared shape, whatever the
    elements are. *)
Theorem output_shape_fixed q ts i partial :
  partial_shapes_ q !! i = Some partial ->
  IsFullyDefined partial = true ->
  output_shape q ts i = length ts :: map Z.to_nat partial.
Proof.
  intros Hp Hf. rewrite (output_shape_eq _ _ _ _ Hp). f_equal.
  apply list_eq. intros j. rewrite !lookup_map.
  destruct (decide (j < length partial)) as [Hj|Hj].
  - rewrite lookup_seq_lt by exact Hj. simpl.
    destruct (lookup_lt_is_Some_2 partial j Hj) as [d Hd].
    rewrite Hd, (nth_lookup_Some _ _ _ _ Hd). simpl.
    unfold IsFullyDefined in Hf. rewrite forallb_forall in Hf.
    assert (Hd0 : (0 <= d)%Z).
    { apply Z.leb_le, Hf. apply list_elem_of_In.
      eapply list_elem_of_lookup_2. exact Hd. }
    destruct (Z.ltb_spec (-1) d); [reflexivity|lia].
  - rewrite lookup_seq_ge by lia. rewrite lookup_ge_None_2 by lia.
    reflexivity.
Qed.

Lemma max_dim_permutation ts ts' i j :
  Permutation ts ts' -> max_dim ts i j = max_dim ts' i j.
Proof.
  intros Hp. unfold max_dim. generalize 0.
  induction Hp as [|x l l' _ IH|x y l|l l' l'' _ IH1 _ IH2]; intros acc;
    simpl.
  - reflexivity.
  - apply IH.
  - f_equal. lia.
  - rewrite IH1. apply IH2.
Qed.

(** The assembled shape does not depend on the order of the tuples in the
    batch. *)
Theorem output_shape_permutation q ts ts' i :
  Permutation ts ts' -> output_shape q ts i = output_shape q ts' i.
Proof.
  intros Hp. unfold output_shape.
  rewrite (Permutation_length Hp). f_equal.
  apply map_ext. intros j.
  destruct (_ <? _)%Z; [reflexivity|].
  apply max_dim_permutation. exact Hp.
Qed.

(** ** What a padded copy leaves alone *)

Lemma in_slice_other_slot index b offs sizes idx :
  b <> index -> in_slice (index :: offs) (1 :: sizes) (b :: idx) = false.
Proof.
  intros Hne. cbn [in_slice].
  destruct (Nat.leb_spec index b), (Nat.ltb_spec b (index + 1));
    try reflexivity. lia.
Qed.

(** Whatever its outcome, CopyElementToLargerSlice keeps the output's
    element type, shape and buffer length; it answers OK, Internal or
    Unimplemented; and when it does not answer OK the output is exactly as
    it was. *)
Theorem CopyElementToLargerSlice_outcome element parent index :
  dtype (snd (CopyElementToLargerSlice element parent index)) = dtype parent /\
  shape (snd (CopyElementToLargerSlice element parent index)) = shape parent /\
  length (data (snd (CopyElementToLargerSlice element parent index)))
    = length (data parent) /\
  (fst (CopyElementToLargerSlice element parent index) = OK \/
   fst (CopyElementToLargerSlice element parent index) = Internal \/
   fst (CopyElementToLargerSlice element parent index) = Unimplemented) /\
  (fst (CopyElementToLargerSlice element parent index) <> OK ->
   snd (CopyElementToLargerSlice element parent index) = parent).
Proof.
  assert (H : forall NDIMS,
    let r := HandleElementToLargerSliceWithRank NDIMS element parent index in
    dtype (snd r) = dtype parent /\ shape (snd r) = shape parent /\
    length (data (snd r)) = length (data parent) /\
    (fst r = OK \/ fst r = Internal \/ fst r = Unimplemented) /\
    (fst r <> OK -> snd r = parent)).
  { intros NDIMS.
    unfold HandleElementToLargerSliceWithRank, HandleElementToLargerSlice.
    destruct (TF_CALL_ALL_TYPES (dtype element)); [|cbn; tauto].
    destruct (_ <? _); cbn; [tauto|].
    unfold slice_assign. rewrite length_imap. tauto. }
  unfold CopyElementToLargerSlice.
  destruct (negb _); [cbn; tauto|].
  destruct (dims element) as [|[|[|[|[|n]]]]]; try apply H. cbn. tauto.
Qed.

(** A padded copy of an element that fits the slot, into batch slot
    [index] of the output, never changes an entry of another slot. *)
Theorem CopyElementToLargerSlice_other_slots element parent index
    B tgt b idx :
  shape parent = B :: tgt ->
  length (data parent) = B * num_elements tgt ->
  Forall2 le (shape element) tgt -> index < B ->
  b < B -> b <> index -> in_bounds tgt idx ->
  tensor_at (snd (CopyElementToLargerSlice element parent index)) (b :: idx)
    = tensor_at parent (b :: idx).
Proof.
  intros Hsh Hlen _ _ Hb Hne Hidx.
  assert (H : forall NDIMS,
    tensor_at (snd (HandleElementToLargerSliceWithRank NDIMS element parent
                      index)) (b :: idx)
    = tensor_at parent (b :: idx)).
  { intros NDIMS.
    unfold HandleElementToLargerSliceWithRank, HandleElementToLargerSlice.
    destruct (TF_CALL_ALL_TYPES (dtype element)); [|reflexivity].
    destruct (_ <? _); [reflexivity|].
    unfold tensor_at. cbn [snd data shape]. rewrite Hsh.
    assert (Hin : in_bounds (B :: tgt) (b :: idx))
      by (constructor; assumption).
    assert (Hlt : ravel (B :: tgt) (b :: idx) < length (data parent))
      by (rewrite Hlen; exact (ravel_lt _ _ Hin)).
    rewrite nth_slice_assign by exact Hlt.
    rewrite (unravel_ravel _ _ Hin).
    rewrite in_slice_other_slot by exact Hne. reflexivity. }
  unfold CopyElementToLargerSlice.
  destruct (negb _); [reflexivity|].
  destruct (dims element) as [|[|[|[|[|n]]]]]; try apply H. reflexivity.
Qed.

(** ** The progress function on a store it can pop from *)

Lemma pop_n_spec k : forall q,
  pop_n k q =
    (front_tuples k (queues_ q), with_queues q (map (drop k) (queues_ q))).
Proof.
  induction k as [|k IH]; intros q.
  - cbn [pop_n]. unfold front_tuples. cbn [seq map]. f_equal.
    rewrite (map_ext _ id) by (intros sub; reflexivity).
    rewrite map_id. destruct q; reflexivity.
  - cbn [pop_n]. unfold DequeueLocked. rewrite IH. cbn [queues_ with_queues].
    f_equal.
    + unfold front_tuples. cbn [seq map]. f_equal.
      * apply map_ext. intros [|x sub]; reflexivity.
      * rewrite <- seq_shift, map_map. apply map_ext. intros v.
        rewrite map_map. apply map_ext. intros [|x sub]; [|reflexivity].
        destruct v; reflexivity.
    + unfold with_queues. cbn. f_equal.
      rewrite map_map. apply map_ext. intros [|x sub]; [|reflexivity].
      cbn. rewrite drop_nil. reflexivity.
Qed.

Lemma pop_loop_short s : forall result q a,
  ((elements_requested a <= 0)%Z \/ (Z.of_nat s < elements_requested a)%Z) ->
  pop_loop s result q a =
    (if s =? 0 then result else kProgress,
     snd (pop_n s q),
     mkAttempt (elements_requested a - Z.of_nat s) (done_callback a)
       (context a) (cancellation_token a) (tuples a ++ fst (pop_n s q))
       (tuple a)).
Proof.
  induction s as [|s IH]; intros result q a Hreq.
  - cbn [pop_loop pop_n fst snd Nat.eqb]. rewrite app_nil_r.
    change (Z.of_nat 0) with 0%Z. rewrite Z.sub_0_r.
    destruct a; reflexivity.
  - cbn [pop_loop pop_n].
    destruct (DequeueLocked q) as [t q1].
    cbn [elements_requested].
    destruct (Z.eqb_spec (elements_requested a - 1) 0) as [E|E]; [lia|].
    rewrite IH by (cbn [elements_requested]; lia).
    destruct (pop_n s q1) as [ts q2].
    cbn [fst snd elements_requested done_callback context cancellation_token
         tuples tuple Nat.eqb].
    rewrite <- app_assoc. cbn [app].
    replace (elements_requested a - 1 - Z.of_nat s)%Z
      with (elements_requested a - Z.of_nat (S s))%Z by lia.
    destruct (s =? 0); reflexivity.
Qed.

Lemma pop_loop_complete s : forall n result q a,
  elements_requested a = Z.of_nat (S n) -> S n <= s ->
  pop_loop s result q a =
    (kComplete, snd (pop_n (S n) q),
     assemble (snd (pop_n (S n) q))
       (mkAttempt 0 (done_callback a) (context a) (cancellation_token a)
          (tuples a ++ fst (pop_n (S n) q)) (tuple a))).
Proof.
  induction s as [|s IH]; intros n result q a Hreq Hs; [lia|].
  cbn [pop_loop]. cbn [pop_n].
  destruct (DequeueLocked q) as [t q1].
  cbn [elements_requested]. rewrite Hreq.
  destruct n as [|n].
  - cbn [pop_n fst snd]. reflexivity.
  - destruct (Z.eqb_spec (Z.of_nat (S (S n)) - 1) 0) as [E|E]; [lia|].
    rewrite (IH n) by (cbn [elements_requested]; lia).
    destruct (pop_n (S n) q1) as [ts q2].
    cbn [fst snd elements_requested done_callback context cancellation_token
         tuples tuple].
    rewrite <- app_assoc. reflexivity.
Qed.

Lemma drop_all_store q len :
  store_ok q len ->
  map (drop len) (queues_ q) = replicate (num_components q) [].
Proof.
  intros [Hn Hall]. rewrite <- Hn. clear Hn.
  induction (queues_ q) as [|sub qs IH]; [reflexivity|].
  inversion Hall as [|? ? Hsub Hrest]; subst.
  cbn [map length replicate]. rewrite (IH Hrest). f_equal.
  apply drop_ge. lia.
Qed.

Lemma validated_with_queues q qs ts :
  validated q ts -> validated (with_queues q qs) ts.
Proof.
  unfold validated. intros H. eapply Forall_impl; [exact H|].
  intros t Ht. cbn beta in Ht |- *.
  rewrite <- Ht. unfold ValidateTuple.
  change (ValidateTupleCommon (with_queues q qs) t)
    with (ValidateTupleCommon q t).
  destruct (negb (ok (ValidateTupleCommon q t))); [reflexivity|].
  induction (seq 0 (length t)) as [|c cs IH]; [reflexivity|].
  cbn [validate_shapes]. rewrite IH. reflexivity.
Qed.

(** On an empty store that is open (or for an attempt that needs nothing
    more) the progress function reports no progress and changes neither the
    queue nor the attempt. *)
Theorem dequeue_many_run_empty q a :
  0 < num_components q -> store_ok q 0 ->
  closed_ q = false \/ (elements_requested a <= 0)%Z ->
  dequeue_many_run q a = (kNoProgress, q, a).
Proof.
  intros Hn Hq Hc. unfold dequeue_many_run.
  rewrite (size32_store q 0 Hn Hq) by reflexivity.
  change (Z.of_nat 0) with 0%Z.
  destruct Hc as [Hc|Hc].
  - rewrite Hc. reflexivity.
  - destruct (Z.ltb_spec 0 (elements_requested a)); [lia|].
    rewrite andb_false_r. reflexivity.
Qed.

(** With fewer elements in an open store than the attempt needs, one run
    collects all of them in FIFO order behind those already collected,
    lowers the count by their number, empties every container and reports
    progress; the caller's context and the output tuple are not touched. *)
Theorem dequeue_many_run_partial q a len :
  0 < num_components q -> store_ok q len -> (Z.of_nat len < 2 ^ 31)%Z ->
  closed_ q = false ->
  0 < len -> (Z.of_nat len < elements_requested a)%Z ->
  dequeue_many_run q a =
    (kProgress,
     with_queues q (replicate (num_components q) []),
     mkAttempt (elements_requested a - Z.of_nat len) (done_callback a)
       (context a) (cancellation_token a)
       (tuples a ++ front_tuples len (queues_ q)) (tuple a)).
Proof.
  intros Hn Hq Hlen Hc Hpos Hreq. unfold dequeue_many_run.
  rewrite (size32_store q len Hn Hq Hlen), Hc. cbn [andb].
  rewrite Nat2Z.id, pop_loop_short by lia.
  rewrite pop_n_spec. cbn [fst snd].
  rewrite (drop_all_store q len Hq).
  destruct (Nat.eqb_spec len 0); [lia|reflexivity].
Qed.

(** An attempt whose count is negative never completes by popping: one
    run takes every element the store holds, whether or not the queue is
    closed, and reports progress at best. *)
Theorem dequeue_many_run_negative q a len :
  0 < num_components q -> store_ok q len -> (Z.of_nat len < 2 ^ 31)%Z ->
  (elements_requested a < 0)%Z ->
  (- 2 ^ 31 <= elements_requested a - Z.of_nat len)%Z ->
  dequeue_many_run q a =
    (if len =? 0 then kNoProgress else kProgress,
     with_queues q (replicate (num_components q) []),
     mkAttempt (elements_requested a - Z.of_nat len) (done_callback a)
       (context a) (cancellation_token a)
       (tuples a ++ front_tuples len (queues_ q)) (tuple a)).
Proof.
  intros Hn Hq Hlen Hreq _. unfold dequeue_many_run.
  rewrite (size32_store q len Hn Hq Hlen).
  destruct (Z.ltb_spec (Z.of_nat len) (elements_requested a)); [lia|].
  rewrite andb_false_r.
  rewrite Nat2Z.id, pop_loop_short by lia.
  rewrite pop_n_spec. cbn [fst snd].
  rewrite (drop_all_store q len Hq). reflexivity.
Qed.

(** When the store holds at least the [n] elements an attempt still needs,
    one run, on an open or a closed queue, pops exactly the [n] oldest
    elements, completes, clears the collected list, leaves the context
    without error and binds to the callback one output per component, of
    the declared element type and of the assembled shape, for the batch
    made of the tuples collected before and the [n] popped ones.  For every
    component whose declared shape has an open dimension, each slot of that
    output holds the batch element in its leading region and zero
    elsewhere.  The entries of the output of a component whose declared
    shape is fully fixed are written by [QueueBase::CopyElementToSlice] and
    are not part of this statement. *)
Theorem dequeue_many_run_complete q a len n :
  0 < num_components q -> store_ok q len -> (Z.of_nat len < 2 ^ 31)%Z ->
  elements_requested a = Z.of_nat (S n) -> S n <= len ->
  initialized q -> supported q -> clean (context a) -> tuple a = [] ->
  validated q (tuples a ++ front_tuples (S n) (queues_ q)) ->
  let batch := tuples a ++ front_tuples (S n) (queues_ q) in
  exists outs,
    dequeue_many_run q a =
      (kComplete,
       with_queues q (map (drop (S n)) (queues_ q)),
       mkAttempt 0 outs (context a) (cancellation_token a) [] outs) /\
    length batch = length (tuples a) + S n /\
    length outs = num_components q /\
    forall i partial,
      partial_shapes_ q !! i = Some partial ->
      exists out,
        outs !! i = Some out /\
        dtype out = nth i (component_dtypes_ q) 0 /\
        shape out = output_shape q batch i /\
        (IsFullyDefined partial = false ->
         length (data out) = num_elements (output_shape q batch i) /\
         forall b idx,
           b < length batch ->
           in_bounds (tail (output_shape q batch i)) idx ->
           tensor_at out (b :: idx) =
             if in_boundsb (shape (batch_element batch b i)) idx
             then tensor_at (batch_element batch b i) idx
             else 0%Z).
Proof.
  intros Hn Hq Hlen Hreq Hle Hinit Hsupp Hclean Hempty Hvalid.
  unfold dequeue_many_run.
  rewrite (size32_store q len Hn Hq Hlen).
  destruct (Z.ltb_spec (Z.of_nat len) (elements_requested a)); [lia|].
  rewrite andb_false_r.
  rewrite Nat2Z.id, (pop_loop_complete len n) by assumption.
  rewrite pop_n_spec. cbn [fst snd].
  set (q1 := with_queues q (map (drop (S n)) (queues_ q))).
  set (ts := tuples a ++ front_tuples (S n) (queues_ q)) in *.
  destruct (assemble_ok q1
              (mkAttempt 0 (done_callback a) (context a)
                 (cancellation_token a) ts (tuple a))
              Hinit (validated_with_queues _ _ _ Hvalid) Hsupp Hclean Hempty)
    as (outs & E & Hf).
  exists outs. split; [rewrite E; reflexivity|].
  cbn [tuples] in Hf.
  assert (Hf' : outputs_filled q ts (fun _ => length ts) outs) by exact Hf.
  clear Hf. destruct Hf' as [Hlo Hall].
  split.
  { unfold ts, front_tuples. rewrite length_app, length_map, length_seq.
    reflexivity. }
  split; [exact Hlo|].
  intros i partial Hp.
  assert (Hi : i < num_components q).
  { unfold num_components. rewrite (proj2 Hinit).
    eapply lookup_lt_Some. exact Hp. }
  destruct (Hall i Hi) as (out & Ho & Hdt & Hsh & Hdyn).
  exists out. repeat split; try assumption.
  - apply Hdyn. rewrite (has_dynamic_shape_partial q ts i partial Hp).
    intros. apply negb_true_iff. assumption.
  - intros b idx Hb Hidx.
    destruct Hdyn as [_ Hat].
    { rewrite (has_dynamic_shape_partial q ts i partial Hp).
      apply negb_true_iff. assumption. }
    rewrite (Hat b idx Hb Hidx).
    destruct (Nat.ltb_spec b (length ts)); [reflexivity|lia].
Qed.

Lemma pop_loop_frame s : forall result q a,
  (pop_loop s result q a).1.2
    = with_queues q (queues_ (pop_loop s result q a).1.2).
Proof.
  induction s as [|s IH]; intros result q a.
  - cbn. destruct q; reflexivity.
  - cbn [pop_loop]. unfold DequeueLocked.
    destruct (_ =? 0)%Z; [reflexivity|].
    rewrite IH. reflexivity.
Qed.

Lemma closed_short_run q a len :
  0 < num_components q -> store_ok q len -> (Z.of_nat len < 2 ^ 31)%Z ->
  closed_ q = true -> (Z.of_nat len < elements_requested a)%Z ->
  dequeue_many_run q a =
    (kComplete,
     with_queues q
       (snd (restore_tuples (num_components q) (rev (tuples a))
               (SetStatus (context a) OutOfRange) (queues_ q))),
     with_context a
       (fst (restore_tuples (num_components q) (rev (tuples a))
               (SetStatus (context a) OutOfRange) (queues_ q)))).
Proof.
  intros Hn Hq Hlen Hc Hreq. unfold dequeue_many_run.
  rewrite (size32_store q len Hn Hq Hlen), Hc.
  destruct (Z.ltb_spec (Z.of_nat len) (elements_requested a)); [|lia].
  cbn [andb]. case_bool_decide as Hts; cbn [negb].
  - rewrite Hts. cbn [rev restore_tuples fst snd].
    destruct q; reflexivity.
  - destruct (restore_tuples _ _ _ _) as [ctx' qs]. reflexivity.
Qed.

(** The restoration, copy by copy: on a closed, short queue every
    container gets one entry per collected tuple in front of what it held;
    visiting the tuples newest first and the components in order, the entry
    for a tuple is the tuple's component when that copy's allocation
    succeeds and a default-constructed tensor when it fails; exactly one
    allocation is made per component per tuple. *)
Theorem dequeue_many_run_restored_entries q a len j sub :
  0 < num_components q -> store_ok q len -> (Z.of_nat len < 2 ^ 31)%Z ->
  closed_ q = true -> (Z.of_nat len < elements_requested a)%Z ->
  queues_ q !! j = Some sub ->
  queues_ (dequeue_many_run q a).1.2 !! j =
    Some (rev (imap (fun v t =>
                       restored (context a) (v * num_components q + j)
                         (component t j))
                 (rev (tuples a))) ++ sub) /\
  persistent_calls (context (dequeue_many_run q a).2) =
    persistent_calls (context a) + length (tuples a) * num_components q.
Proof.
  intros Hn Hq Hlen Hc Hreq Hj.
  rewrite (closed_short_run q a len Hn Hq Hlen Hc Hreq).
  cbn [fst snd queues_ with_queues context with_context]. split.
  - rewrite restore_tuples_queues, Hj. cbn [fmap option_fmap option_map].
    assert (Hlt : j < num_components q).
    { rewrite <- (proj1 Hq). eapply lookup_lt_Some. exact Hj. }
    rewrite bool_decide_eq_true_2 by exact Hlt. reflexivity.
  - rewrite restore_tuples_context. cbn [persistent_calls SetStatus].
    rewrite length_rev. reflexivity.
Qed.

(** Partial progress followed by closing is undone: after a run on an open
    store that holds too few elements, a run on the same store, now closed,
    completes with OutOfRange and leaves the store exactly as it was before
    the first run (the context holding no error before, and every
    restoration copy succeeding). *)
Theorem progress_then_close_restores q0 a0 len q1 :
  0 < num_components q0 -> store_ok q0 len -> (Z.of_nat len < 2 ^ 31)%Z ->
  closed_ q0 = false -> (Z.of_nat len < elements_requested a0)%Z ->
  tuples a0 = [] ->
  clean (context a0) ->
  copy_fails (context a0) (len * num_components q0) = false ->
  closed_ q1 = true ->
  component_dtypes_ q1 = component_dtypes_ q0 ->
  queues_ q1 = queues_ (dequeue_many_run q0 a0).1.2 ->
  (dequeue_many_run q1 (dequeue_many_run q0 a0).2).1.1 = kComplete /\
  status (context (dequeue_many_run q1 (dequeue_many_run q0 a0).2).2)
    = OutOfRange /\
  queues_ (dequeue_many_run q1 (dequeue_many_run q0 a0).2).1.2 = queues_ q0.
Proof.
  intros Hn Hq Hlen Hopen Hreq Hts Hclean Hok Hclosed Hdt Hqs.
  assert (E0 : dequeue_many_run q0 a0 =
    (if len =? 0 then kNoProgress else kProgress,
     with_queues q0 (replicate (num_components q0) []),
     mkAttempt (elements_requested a0 - Z.of_nat len) (done_callback a0)
       (context a0) (cancellation_token a0)
       (front_tuples len (queues_ q0)) (tuple a0))).
  { unfold dequeue_many_run.
    rewrite (size32_store q0 len Hn Hq Hlen), Hopen. cbn [andb].
    rewrite Nat2Z.id, pop_loop_short by lia.
    rewrite pop_n_spec, Hts. cbn [fst snd app].
    rewrite (drop_all_store q0 len Hq). reflexivity. }
  rewrite E0 in Hqs |- *. cbn [fst snd queues_ with_queues] in Hqs |- *.
  assert (Hn1 : num_components q1 = num_components q0)
    by (unfold num_components; rewrite Hdt; reflexivity).
  assert (Hq1 : store_ok q1 0).
  { split.
    - rewrite Hqs, length_replicate. symmetry. exact Hn1.
    - rewrite Hqs. apply Forall_replicate. reflexivity. }
  rewrite (closed_short_run q1 _ 0); try assumption; try reflexivity;
    [|lia|cbn [elements_requested]; lia].
  cbn [fst snd tuples context with_context with_queues queues_].
  assert (Hlen_ts : length (front_tuples len (queues_ q0)) = len).
  { unfold front_tuples. rewrite length_map, length_seq. reflexivity. }
  split; [reflexivity|]. split.
  - rewrite restore_tuples_context. unfold status.
    cbn [status_ SetStatus persistent_calls].
    rewrite (proj1 Hclean), (proj2 Hclean).
    rewrite length_rev, Hlen_ts, Hn1.
    apply (status_after_copies_none (SetStatus (context a0) OutOfRange)).
    exact Hok.
  - rewrite restore_tuples_all_ok.
    + rewrite Hqs, <- (drop_all_store q0 len Hq).
      pose proof (pop_n_prepend len q0 len Hq (Nat.le_refl _)) as Hp.
      rewrite pop_n_spec in Hp. exact Hp.
    + rewrite Hlen_ts, Hn1. exact Hok.
    + rewrite Hqs, length_replicate. symmetry. exact Hn1.
Qed.

(** The progress function changes nothing of the queue but the store:
    the closed flag, the ledger, the configuration and the lock count are
    those it was given. *)
Theorem dequeue_many_run_frame q a :
  (dequeue_many_run q a).1.2
    = with_queues q (queues_ (dequeue_many_run q a).1.2).
Proof.
  unfold dequeue_many_run.
  destruct (closed_ q && _).
  - case_bool_decide; cbn [negb].
    + destruct q; reflexivity.
    + destruct (restore_tuples _ _ _ _). reflexivity.
  - apply pop_loop_frame.
Qed.

(** ** An element type the zero fill does not handle *)

Lemma allocate_components_unhandled q n : forall base a dynamic_shape i,
  clean (context a) -> base <= i < base + n ->
  has_dynamic_shape q (tuples a) i = true ->
  TF_CALL_ALL_TYPES (nth i (component_dtypes_ q) 0) = false ->
  exists a',
    allocate_components q (seq base n) (a, dynamic_shape) = inr a' /\
    status (context a') = Unimplemented /\
    done_callback a' = done_callback a /\
    tuples a' = tuples a.
Proof.
  induction n as [|n IH]; intros base a dyn i Hclean Hi Hdyn Ht; [lia|].
  cbn [seq allocate_components]. unfold allocate_component.
  destruct (has_dynamic_shape q (tuples a) base) eqn:Eb.
  - unfold SetElementZero. cbn [dtype allocate_temp].
    destruct (TF_CALL_ALL_TYPES (nth base (component_dtypes_ q) 0)) eqn:Et.
    + rewrite (SetStatus_clean _ Hclean), with_context_id.
      unfold status. rewrite (proj1 Hclean). cbn [ok negb].
      assert (base <> i) by congruence.
      match goal with |- context [allocate_components q _ (?a1, ?d1)] =>
        destruct (IH (S base) a1 d1 i) as (a' & E & H1 & H2 & H3);
          try assumption; try lia
      end.
      exists a'. split; [exact E|]. auto.
    + eexists. split.
      * unfold status, SetStatus, with_context.
        cbn [context status_]. rewrite (proj1 Hclean), (proj2 Hclean).
        cbn [ok negb]. reflexivity.
      * repeat split; reflexivity.
  - assert (base <> i) by congruence.
    match goal with |- context [allocate_components q _ (?a1, ?d1)] =>
      destruct (IH (S base) a1 d1 i) as (a' & E & H1 & H2 & H3);
        try assumption; try lia
    end.
    exists a'. split; [exact E|]. auto.
Qed.

(** When a component with an open dimension has an element type outside
    TF_CALL_ALL_TYPES, the assembler gives up in the allocation loop: the
    status is Unimplemented, nothing is bound to the callback, and the
    collected tuples stay with the attempt. *)
Theorem assemble_unhandled_type q a i partial :
  clean (context a) ->
  i < num_components q ->
  partial_shapes_ q !! i = Some partial ->
  IsFullyDefined partial = false ->
  TF_CALL_ALL_TYPES (nth i (component_dtypes_ q) 0) = false ->
  status (context (assemble q a)) = Unimplemented /\
  done_callback (assemble q a) = done_callback a /\
  tuples (assemble q a) = tuples a.
Proof.
  intros Hclean Hi Hp Hfd Ht.
  assert (Hdyn : has_dynamic_shape q (tuples a) i = true).
  { rewrite (has_dynamic_shape_partial _ _ _ _ Hp), Hfd. reflexivity. }
  destruct (allocate_components_unhandled q (num_components q) 0 a [] i
              Hclean ltac:(lia) Hdyn Ht) as (a' & E & H1 & H2 & H3).
  unfold assemble. rewrite E. auto.
Qed.

(** The same failure seen from the progress function: the attempt that
    finds its last elements completes with Unimplemented and without a
    result, and the elements it popped are not put back: the store is left
    without them and they stay in the attempt's collected list. *)
Theorem dequeue_many_run_unhandled_type q a len n i partial :
  0 < num_components q -> store_ok q len -> (Z.of_nat len < 2 ^ 31)%Z ->
  elements_requested a = Z.of_nat (S n) -> S n <= len ->
  clean (context a) ->
  i < num_components q ->
  partial_shapes_ q !! i = Some partial ->
  IsFullyDefined partial = false ->
  TF_CALL_ALL_TYPES (nth i (component_dtypes_ q) 0) = false ->
  (dequeue_many_run q a).1.1 = kComplete /\
  queues_ (dequeue_many_run q a).1.2 = map (drop (S n)) (queues_ q) /\
  status (context (dequeue_many_run q a).2) = Unimplemented /\
  done_callback (dequeue_many_run q a).2 = done_callback a /\
  tuples (dequeue_many_run q a).2
    = tuples a ++ front_tuples (S n) (queues_ q).
Proof.
  intros Hn Hq Hlen Hreq Hle Hclean Hi Hp Hfd Ht.
  unfold dequeue_many_run.
  rewrite (size32_store q len Hn Hq Hlen).
  destruct (Z.ltb_spec (Z.of_nat len) (elements_requested a)); [lia|].
  rewrite andb_false_r.
  rewrite Nat2Z.id, (pop_loop_complete len n) by assumption.
  rewrite pop_n_spec. cbn [fst snd queues_ with_queues].
  split; [reflexivity|]. split; [reflexivity|].
  set (q1 := with_queues q (map (drop (S n)) (queues_ q))).
  set (a1 := mkAttempt 0 (done_callback a) (context a) (cancellation_token a)
               (tuples a ++ front_tuples (S n) (queues_ q)) (tuple a)).
  assert (Hdyn : has_dynamic_shape q1 (tuples a1) i = true).
  { rewrite (has_dynamic_shape_partial q1 _ i partial Hp), Hfd.
    reflexivity. }
  assert (Hrange : 0 <= i < 0 + num_components q1)
    by (change (num_components q1) with (num_components q); lia).
  destruct (allocate_components_unhandled q1 (num_components q1) 0 a1 [] i
              Hclean Hrange Hdyn Ht) as (a' & E & H1 & H2 & H3).
  unfold assemble. rewrite E. auto.
Qed.
End PaddingFIFOQueue.

(** * The padding example and concrete instances *)

(** C3: for a component whose declared shape leaves a dimension open, the
    allocation loop hands the copy loop a buffer that is zero throughout,
    and the delivered buffer holds, in batch slot b, the entries of element
    b inside the element's extent and zero outside it.  For three elements
    of shapes [2], [3] and [1] the attempt completes with the [3,3] buffer
    whose rows are 11 12 0, 21 22 23 and 31 0 0. *)
Theorem padded_batch_contents :
  (forall TF_CALL_ALL_TYPES empty_PersistentTensor q a i partial,
     initialized q ->
     validated empty_PersistentTensor q (tuples a) ->
     supported TF_CALL_ALL_TYPES q ->
     clean (context a) -> tuple a = [] ->
     partial_shapes_ q !! i = Some partial ->
     IsFullyDefined partial = false ->
     (exists a1 dynamic_shape zeroed,
        allocate_components TF_CALL_ALL_TYPES empty_PersistentTensor q
          (seq 0 (num_components q)) (a, []) = inl (a1, dynamic_shape) /\
        tuple a1 !! i = Some zeroed /\
        data zeroed =
          replicate
            (num_elements (output_shape empty_PersistentTensor q (tuples a) i))
            0%Z) /\
     exists out,
       done_callback (assemble TF_CALL_ALL_TYPES empty_PersistentTensor q a)
         !! i = Some out /\
       shape out = output_shape empty_PersistentTensor q (tuples a) i /\
       forall b idx,
         b < length (tuples a) ->
         in_bounds (tail (output_shape empty_PersistentTensor q (tuples a) i))
           idx ->
         tensor_at out (b :: idx) =
           if in_boundsb
                (shape (batch_element empty_PersistentTensor (tuples a) b i))
                idx
           then tensor_at (batch_element empty_PersistentTensor (tuples a) b i)
                  idx
           else 0%Z) /\
  (let run :=
     dequeue_many_run all_types no_tensor (ragged_queue three_rows false)
       (fresh_attempt 3 sample_ctx) in
   run.1.1 = kComplete /\
   status (context run.2) = OK /\
   queues_ run.1.2 = [[]] /\
   done_callback run.2 =
     [mkTensor DT_INT32 [3; 3] [11; 12; 0; 21; 22; 23; 31; 0; 0]%Z]).
Proof.
  split; [|vm_compute; repeat split; reflexivity].
  intros TF_CALL_ALL_TYPES empty_PersistentTensor q a i partial
    Hinit Hvalid Hsupp Hclean Hempty Hp Hfd.
  assert (Hi : i < num_components q).
  { unfold num_components. rewrite (proj2 Hinit).
    eapply lookup_lt_Some. exact Hp. }
  assert (Hdyn : has_dynamic_shape q (tuples a) i = true).
  { rewrite (has_dynamic_shape_partial _ _ _ _ Hp), Hfd. reflexivity. }
  split.
  - rewrite allocate_components_ok;
      [|exact Hclean|intros c Hc; apply Hsupp; lia].
    eexists _, _, _. split; [reflexivity|].
    rewrite Hempty. cbn [with_tuple tuple app]. split.
    + rewrite lookup_map, lookup_seq_lt by exact Hi. reflexivity.
    + rewrite Nat.add_0_l.
      unfold initial_buffer, SetElementZero, allocate_temp. rewrite Hdyn.
      cbn [dtype shape data]. rewrite (proj1 Hsupp i Hi).
      cbn [snd data]. rewrite length_map, length_seq. reflexivity.
  - destruct (assemble_ok _ _ q a Hinit Hvalid Hsupp Hclean Hempty)
      as (outs & E & Hlen & Hall).
    rewrite E. cbn [done_callback].
    destruct (Hall i Hi) as (out & Hout & _ & Hsh & Hcontent).
    exists out. split; [exact Hout|]. split; [exact Hsh|].
    intros b idx Hb Hidx.
    destruct (Hcontent Hdyn) as [_ Hat].
    rewrite (Hat b idx Hb Hidx).
    destruct (Nat.ltb_spec b (length (tuples a))); [reflexivity|lia].
Qed.

(** ** Instances *)

Lemma ragged_initialized store closed : initialized (ragged_queue store closed).
Proof. split; reflexivity. Defined.

Lemma ragged_supported store closed :
  supported all_types (ragged_queue store closed).
Proof.
  split.
  - intros [|i] Hi; [reflexivity|]. apply Nat.lt_1_r in Hi. discriminate.
  - intros [|[|i]] partial H; simpl in H; try discriminate.
    injection H as H. subst partial. intros _. apply (Nat.leb_le 1 4).
    reflexivity.
Defined.

Lemma three_tuples_validated store closed :
  validated no_tensor (ragged_queue store closed) three_tuples.
Proof. repeat constructor. Defined.

Lemma sample_ctx_clean : clean sample_ctx.
Proof. split; [reflexivity|intros s; reflexivity]. Defined.

Lemma closed_queue_store : store_ok closed_queue 1.
Proof. split; [reflexivity|repeat constructor]. Defined.

(** C1, at a failing restoration copy: the closed queue holds one element,
    the attempt has collected two and needs three more, the context holds
    no error and keeps the first error it is handed, and the second
    restoration copy fails.  The attempt completes, a default-constructed
    tensor stands where the element of the failed copy was, and the status
    is the OutOfRange set first: the DataLoss that lines 114-118 hand to
    SetStatus does not become the attempt's status. *)
Theorem closed_short_failing_copy_status :
  let run :=
    dequeue_many_run all_types no_tensor closed_queue
      (short_attempt (failing_ctx first_error_rule)) in
  copy_fails (failing_ctx first_error_rule) 2 = true /\
  run.1.1 = kComplete /\
  status (context run.2) = OutOfRange /\
  queues_ run.1.2 = [[no_tensor; vec [21; 22; 23]%Z; vec [31]%Z]].
Proof. vm_compute. repeat split; reflexivity. Qed.

Lemma dequeue_many_run_store_witness :
  store_ok
    (dequeue_many_run all_types no_tensor closed_queue
       (short_attempt (ctx0 overwrite_rule (fun k => if k =? 1 then Internal else OK)))).1.2
    3.
Proof.
  apply (dequeue_many_run_store all_types no_tensor closed_queue
           (short_attempt (ctx0 overwrite_rule
              (fun k => if k =? 1 then Internal else OK))) 1).
  - cbv. lia.
  - exact closed_queue_store.
  - reflexivity.
Defined.

Lemma assemble_output_shape_witness :
  exists out target,
    done_callback
      (assemble all_types no_tensor open_queue
         (mkAttempt 0 [] sample_ctx 0 three_tuples [])) !! 0 = Some out /\
    shape out = 3 :: target /\
    length target = 1.
Proof.
  destruct (assemble_output_shape all_types no_tensor open_queue
              (mkAttempt 0 [] sample_ctx 0 three_tuples []) 0 [(-1)%Z])
    as (out & target & H1 & H2 & H3 & _).
  - apply ragged_initialized.
  - apply three_tuples_validated.
  - apply ragged_supported.
  - exact sample_ctx_clean.
  - reflexivity.
  - discriminate.
  - reflexivity.
  - exists out, target. split; [exact H1|]. split; [exact H2|exact H3].
Defined.

Lemma padded_batch_contents_witness :
  exists out,
    done_callback
      (assemble all_types no_tensor open_queue
         (mkAttempt 0 [] sample_ctx 0 three_tuples [])) !! 0 = Some out /\
    tensor_at out [0; 1] = 12%Z /\
    tensor_at out [0; 2] = 0%Z.
Proof.
  destruct (proj1 padded_batch_contents all_types no_tensor open_queue
              (mkAttempt 0 [] sample_ctx 0 three_tuples []) 0 [(-1)%Z])
    as (_ & out & H1 & _ & H3).
  - apply ragged_initialized.
  - apply three_tuples_validated.
  - apply ragged_supported.
  - exact sample_ctx_clean.
  - reflexivity.
  - reflexivity.
  - reflexivity.
  - exists out. split; [exact H1|]. split.
    + apply (H3 0 [1]); [cbv; lia|repeat constructor].
    + apply (H3 0 [2]); [cbv; lia|repeat constructor].
Defined.

Lemma padded_copy_internal_witness :
  fst (CopyElementToLargerSlice all_types
         (batch_element no_tensor three_tuples 1 0) zero_output 1)
    <> Internal.
Proof.
  apply (padded_copy_internal all_types no_tensor open_queue three_tuples
           1 0 1 (vec [21; 22; 23]%Z) zero_output 1 zero_output).
  - discriminate.
  - apply ragged_initialized.
  - apply three_tuples_validated.
  - cbv. lia.
  - cbv. lia.
  - reflexivity.
Defined.


Lemma CopyElementToLargerSlice_rank_mismatch_witness :
  CopyElementToLargerSlice all_types zero_output zero_output 0
    = (Internal, zero_output).
Proof.
  apply (CopyElementToLargerSlice_rank_mismatch all_types
           zero_output zero_output 0).
  cbv. lia.
Defined.

Lemma TryDequeueMany_zero_witness :
  exists tuple,
    TryDequeueMany (fun q => q) (ragged_queue three_rows false) 0 sample_ctx
      (idle_manager false)
    = mkOutcome (ragged_queue three_rows false) sample_ctx
        (idle_manager false) (Some tuple) /\
    length tuple = 1.
Proof.
  destruct (TryDequeueMany_zero (fun q => q) (ragged_queue three_rows false)
              sample_ctx (idle_manager false))
    as (tuple & E & Hl & _).
  - apply ragged_initialized.
  - exists tuple. split; [exact E|exact Hl].
Defined.

Lemma TryDequeueMany_already_cancelled_witness :
  status
    (context_after
       (TryDequeueMany (fun q => q) (ragged_queue three_rows false) 2
          sample_ctx (idle_manager true))) = Cancelled /\
  dequeue_attempts_
    (queue_after
       (TryDequeueMany (fun q => q) (ragged_queue three_rows false) 2
          sample_ctx (idle_manager true))) = [].
Proof.
  destruct (TryDequeueMany_already_cancelled (fun q => q)
              (ragged_queue three_rows false) 2 sample_ctx (idle_manager true))
    as (H1 & H2 & _).
  - reflexivity.
  - reflexivity.
  - exact sample_ctx_clean.
  - split; [exact H1|exact H2].
Defined.

(** ** Restoration on short close, run on the model

    A, B and C are queued and a request for five elements collects them; the
    queue is closed; the request is run again: it completes with OutOfRange
    and the store holds A, B, C in their original order. *)
Example restoration_on_short_close :
  let ctx := ctx0 first_error_rule (fun _ => OK) in
  let first :=
    dequeue_many_run all_types no_tensor (ragged_queue three_rows false)
      (fresh_attempt 5 ctx) in
  let second :=
    dequeue_many_run all_types no_tensor
      (ragged_queue (nth 0 (queues_ first.1.2) []) true) first.2 in
  first.1.1 = kProgress /\
  queues_ first.1.2 = [[]] /\
  tuples first.2 = three_tuples /\
  second.1.1 = kComplete /\
  status (context second.2) = OutOfRange /\
  queues_ second.1.2 = [three_rows].
Proof. vm_compute. repeat split; reflexivity. Qed.

(** ** Instances of the further properties *)

Lemma ragged_store store closed :
  store_ok (ragged_queue store closed) (length store).
Proof. split; [reflexivity|repeat constructor]. Defined.

Lemma ConvertShapes_resolved_witness :
  exists sh,
    ConvertShapesPartialDimensionsToZero [[(-1)%Z; 4%Z]] !! 0 = Some sh /\
    IsCompatibleWith [(-1)%Z; 4%Z] sh = true.
Proof.
  destruct (ConvertShapes_resolved [[(-1)%Z; 4%Z]] 0 [(-1)%Z; 4%Z] eq_refl)
    as (_ & sh & H1 & _ & H3 & _).
  exists sh. split; [exact H1|exact H3].
Defined.

Lemma ValidateManyTuple_batch_witness :
  length [batch_tensor] = num_components open_queue.
Proof.
  apply (ValidateManyTuple_batch no_tensor open_queue [batch_tensor]).
  reflexivity.
Defined.

Lemma ValidateManyTuple_slices_witness :
  ValidateTuple no_tensor open_queue [vec [7; 8; 9]%Z] = OK.
Proof.
  apply (ValidateManyTuple_slices no_tensor open_queue [batch_tensor]).
  - reflexivity.
  - reflexivity.
  - intros [|i] Hi; [split; reflexivity|].
    apply Nat.lt_1_r in Hi. discriminate.
Defined.

Lemma Initialize_constructed_witness :
  Initialize OK (new_PaddingFIFOQueue 10 [DT_INT32] [[(-1)%Z]]) = OK.
Proof.
  apply (proj1 (Initialize_constructed OK 10 [DT_INT32] [[(-1)%Z]])).
  split; reflexivity.
Defined.

Lemma output_shape_fixed_witness :
  output_shape no_tensor fixed_queue three_tuples 0 = [3; 2].
Proof.
  apply (output_shape_fixed no_tensor fixed_queue three_tuples 0 [2%Z]);
    reflexivity.
Defined.

Lemma output_shape_permutation_witness :
  output_shape no_tensor open_queue three_tuples 0 =
  output_shape no_tensor open_queue
    [[vec [21; 22; 23]%Z]; [vec [11; 12]%Z]; [vec [31]%Z]] 0.
Proof.
  apply (output_shape_permutation no_tensor open_queue).
  apply perm_swap.
Defined.

Lemma CopyElementToLargerSlice_outcome_witness :
  snd (CopyElementToLargerSlice all_types zero_output zero_output 0)
    = zero_output.
Proof.
  apply (CopyElementToLargerSlice_outcome all_types zero_output zero_output 0).
  discriminate.
Defined.

Lemma CopyElementToLargerSlice_other_slots_witness :
  tensor_at
    (snd (CopyElementToLargerSlice all_types (vec [21; 22; 23]%Z)
            zero_output 1)) [0; 2]
    = tensor_at zero_output [0; 2].
Proof.
  apply (CopyElementToLargerSlice_other_slots all_types (vec [21; 22; 23]%Z)
           zero_output 1 3 [3] 0 [2]).
  - reflexivity.
  - reflexivity.
  - repeat constructor.
  - cbv. lia.
  - cbv. lia.
  - discriminate.
  - repeat constructor.
Defined.

Lemma dequeue_many_run_empty_witness :
  dequeue_many_run all_types no_tensor open_queue (fresh_attempt 3 sample_ctx)
    = (kNoProgress, open_queue, fresh_attempt 3 sample_ctx).
Proof.
  apply (dequeue_many_run_empty all_types no_tensor open_queue
           (fresh_attempt 3 sample_ctx)).
  - cbv. lia.
  - apply (ragged_store [] false).
  - left. reflexivity.
Defined.

Lemma dequeue_many_run_partial_witness :
  dequeue_many_run all_types no_tensor (ragged_queue three_rows false)
    (fresh_attempt 5 sample_ctx)
  = (kProgress, ragged_queue [] false,
     mkAttempt 2 [] sample_ctx 0 three_tuples []).
Proof.
  apply (dequeue_many_run_partial all_types no_tensor
           (ragged_queue three_rows false) (fresh_attempt 5 sample_ctx) 3).
  - cbv. lia.
  - apply (ragged_store three_rows false).
  - reflexivity.
  - reflexivity.
  - cbv. lia.
  - reflexivity.
Defined.

Lemma dequeue_many_run_negative_witness :
  dequeue_many_run all_types no_tensor (ragged_queue three_rows false)
    (fresh_attempt (-1) sample_ctx)
  = (kProgress, ragged_queue [] false,
     mkAttempt (-4) [] sample_ctx 0 three_tuples []).
Proof.
  apply (dequeue_many_run_negative all_types no_tensor
           (ragged_queue three_rows false) (fresh_attempt (-1) sample_ctx) 3).
  - cbv. lia.
  - apply (ragged_store three_rows false).
  - reflexivity.
  - reflexivity.
  - vm_compute. discriminate.
Defined.

Lemma dequeue_many_run_complete_witness :
  exists outs,
    dequeue_many_run all_types no_tensor (ragged_queue three_rows false)
      (fresh_attempt 3 sample_ctx)
    = (kComplete, ragged_queue [] false,
       mkAttempt 0 outs sample_ctx 0 [] outs).
Proof.
  destruct (dequeue_many_run_complete all_types no_tensor
              (ragged_queue three_rows false) (fresh_attempt 3 sample_ctx)
              3 2) as (outs & E & _).
  - cbv. lia.
  - apply (ragged_store three_rows false).
  - reflexivity.
  - reflexivity.
  - cbv. lia.
  - apply ragged_initialized.
  - apply ragged_supported.
  - exact sample_ctx_clean.
  - reflexivity.
  - exact (three_tuples_validated three_rows false).
  - exists outs. exact E.
Defined.

Lemma dequeue_many_run_restored_entries_witness :
  queues_
    (dequeue_many_run all_types no_tensor closed_queue
       (short_attempt (failing_ctx overwrite_rule))).1.2 !! 0
  = Some [no_tensor; vec [21; 22; 23]%Z; vec [31]%Z].
Proof.
  apply (dequeue_many_run_restored_entries all_types no_tensor closed_queue
           (short_attempt (failing_ctx overwrite_rule)) 1 0 [vec [31]%Z]).
  - cbv. lia.
  - exact closed_queue_store.
  - reflexivity.
  - reflexivity.
  - reflexivity.
  - reflexivity.
Defined.

Lemma progress_then_close_restores_witness :
  queues_
    (dequeue_many_run all_types no_tensor (ragged_queue [] true)
       (dequeue_many_run all_types no_tensor (ragged_queue three_rows false)
          (fresh_attempt 5 sample_ctx)).2).1.2
  = [three_rows].
Proof.
  apply (progress_then_close_restores all_types no_tensor
           (ragged_queue three_rows false)
           (fresh_attempt 5 sample_ctx) 3
           (ragged_queue [] true)).
  - cbv. lia.
  - apply (ragged_store three_rows false).
  - reflexivity.
  - reflexivity.
  - reflexivity.
  - reflexivity.
  - exact sample_ctx_clean.
  - reflexivity.
  - reflexivity.
  - reflexivity.
  - reflexivity.
Defined.

Lemma assemble_unhandled_type_witness :
  status
    (context
       (assemble no_types no_tensor open_queue
          (mkAttempt 0 [] sample_ctx 0 three_tuples []))) = Unimplemented.
Proof.
  apply (assemble_unhandled_type no_types no_tensor open_queue
           (mkAttempt 0 [] sample_ctx 0 three_tuples []) 0 [(-1)%Z]).
  - exact sample_ctx_clean.
  - cbv. lia.
  - reflexivity.
  - reflexivity.
  - reflexivity.
Defined.

Lemma dequeue_many_run_unhandled_type_witness :
  status
    (context
       (dequeue_many_run no_types no_tensor (ragged_queue three_rows false)
          (fresh_attempt 3 sample_ctx)).2) = Unimplemented /\
  queues_
    (dequeue_many_run no_types no_tensor (ragged_queue three_rows false)
       (fresh_attempt 3 sample_ctx)).1.2 = [[]].
Proof.
  destruct (dequeue_many_run_unhandled_type no_types no_tensor
              (ragged_queue three_rows false) (fresh_attempt 3 sample_ctx)
              3 2 0 [(-1)%Z]) as (_ & H2 & H3 & _).
  - cbv. lia.
  - apply (ragged_store three_rows false).
  - reflexivity.
  - reflexivity.
  - cbv. lia.
  - exact sample_ctx_clean.
  - cbv. lia.
  - reflexivity.
  - reflexivity.
  - reflexivity.
  - split; [exact H3|exact H2].
Defined.

Lemma closed_short_keeps_first_error_witness :
  status
    (context
       (dequeue_many_run all_types no_tensor closed_queue
          (short_attempt (failing_ctx first_error_rule))).2) = OutOfRange.
Proof.
  apply (closed_short_keeps_first_error all_types no_tensor closed_queue
           (short_attempt (failing_ctx first_error_rule)) 1).
  - cbv. lia.
  - exact closed_queue_store.
  - reflexivity.
  - reflexivity.
  - reflexivity.
  - reflexivity.
  - reflexivity.
Defined.
